(** * Conjugate-symmetry fill and MKL transform configuration

    A shallow embedding of [aten/src/ATen/native/mkl/SpectralOps.cpp]:
    the slice kernel [_fft_fill_with_conjugate_symmetry_slice], its CPU
    driver [_fft_fill_with_conjugate_symmetry_cpu_], and the descriptor
    set-up performed by [_fft_mkl].

    Conventions.
    - [int64_t] values are integers of [Z]; signed overflow is undefined in
      the source and is not modelled, C++ [/] and [%] are [Z.quot] and
      [Z.rem], [>> 1] is [Z.shiftr _ 1]. A division by [0] traps in the
      source: where the kernel divides by an extent, a call that meets an
      extent of [0] has no result.
    - [IntArrayRef], [DimVector] and [ArrayRef<bool>] are lists read with
      [at_] and [flag] (an index out of range is undefined in the source and
      reads [0] / [false] here) and written with stdpp's [<[i:=x]>].
    - Pointers of type [scalar_t*] are element addresses of [Z] into one
      memory, so that the input and the output may be two buffers or two
      views of one buffer. *)

From Stdlib Require Import ZArith Lia.
From stdpp Require Import base list.

Open Scope Z_scope.

(** ** Scalars *)

(** [c10::complex<T>]: a pair of a real and an imaginary part. *)
Record complex (T : Type) : Type := Complex { real : T; imag : T }.
Arguments Complex {T} _ _.
Arguments real {T} _.
Arguments imag {T} _.

(** Array reads. *)
Definition at_ (a : list Z) (i : nat) : Z := default 0 (a !! i).
Definition flag (a : list bool) (i : nat) : bool := default false (a !! i).

(** [for (int64_t i = a; ...; ++i) body], run for [n] iterations. *)
Fixpoint for_loop {S : Type} (n : nat) (i : Z) (body : Z -> S -> S) (s : S) : S :=
  match n with
  | O => s
  | S n' => for_loop n' (i + 1) body (body i s)
  end.

(** [for (int64_t i = a; i < e; ++i) body]. *)
Definition for_lt {S : Type} (a e : Z) (body : Z -> S -> S) (s : S) : S :=
  for_loop (Z.to_nat (e - a)) a body s.

(** [for (int64_t i = a; i != e; ++i) body]: when [e < a] the counter runs
    away from [e] and the loop has no defined result. *)
Definition for_ne {S : Type} (a e : Z) (body : Z -> S -> S) (s : S) : option S :=
  if e <? a then None else Some (for_loop (Z.to_nat (e - a)) a body s).

(** [struct Range { int64_t begin, end; }]. *)
Record Range : Type := mkRange { range_begin : Z; range_end : Z }.

(** Modelled from the spec: the element-type tag [c10::ScalarType] is not
    among the sources. The spec names the two supported real precisions and
    the two complex precisions; every other element type is [OtherType]. *)
Inductive ScalarType : Type :=
| Float | Double | ComplexFloat | ComplexDouble | OtherType (tag : Z).

(** [at::prod_intlist]. *)
Definition prod_intlist (l : list Z) : Z := fold_right Z.mul 1 l.

Module Fill.

(** The loop cursor of the slice kernel: the variables captured by reference
    by the [advance_index] lambda. *)
Record cursor : Type := Cursor {
  iter_index : list Z;
  in_ptr : Z;
  out_ptr : Z;
}.

Section Kernel.

Context {T : Type} (neg : T -> T).

(** [std::conj]. *)
Definition conj (z : complex T) : complex T := Complex (real z) (neg (imag z)).

(** Memory, addressed by element; [writes] records the assignments made so
    far as (destination, source) addresses, in program order. *)
Record heap : Type := Heap {
  mem : Z -> complex T;
  writes : list (Z * Z);
}.

Definition store (m : Z -> complex T) (a : Z) (v : complex T) : Z -> complex T :=
  fun a' => if a' =? a then v else m a'.

(** An assignment [out[...] = std::conj(in[...])], between the addresses
    [dst] and [src]. *)
Definition write_conj (dst src : Z) (h : heap) : heap :=
  Heap (store (mem h) dst (conj (mem h src))) (writes h ++ [(dst, src)]).

Variable is_mirrored_dim : list bool.
Variable signal_half_sizes : list Z.
Variable in_strides : list Z.
Variable out_strides : list Z.

(** The [advance_index] lambda, from dimension [i] on; [n] bounds the
    remaining iterations of its [for] loop. *)
Fixpoint advance_index_loop (n : nat) (i : nat) (cu : cursor) : cursor :=
  match n with
  | O => cu
  | S n' =>
    let c := at_ (iter_index cu) i in
    if c + 1 <? at_ signal_half_sizes i then
      let c' := c + 1 in
      Cursor (<[i := c']> (iter_index cu))
             (in_ptr cu + at_ in_strides i)
             (if flag is_mirrored_dim i then
                if c' =? 1
                then out_ptr cu + (at_ signal_half_sizes i - 1) * at_ out_strides i
                else out_ptr cu - at_ out_strides i
              else out_ptr cu + at_ out_strides i)
    else
      advance_index_loop n' (S i)
        (Cursor (<[i := 0]> (iter_index cu))
                (in_ptr cu - at_ in_strides i * c)
                (if flag is_mirrored_dim i
                 then out_ptr cu - at_ out_strides i
                 else out_ptr cu - at_ out_strides i * c))
  end.

Definition advance_index (cu : cursor) : cursor :=
  advance_index_loop (length (iter_index cu) - 1) 1 cu.

(** The loop that moves the cursor to the start of a slice that begins
    part-way into the data (source lines 97-109). The remainder and the
    quotient of lines 98-99 are integer divisions: with an extent of [0] the
    division traps and the call has no result. *)
Fixpoint seek_loop (n : nat) (i : nat) (linear_idx : Z) (cu : cursor) : option cursor :=
  match n with
  | O => Some cu
  | S n' =>
    if linear_idx >? 0 then
      if at_ signal_half_sizes i =? 0 then None
      else
        let c := Z.rem linear_idx (at_ signal_half_sizes i) in
        let linear_idx' := Z.quot linear_idx (at_ signal_half_sizes i) in
        let idx' := <[i := c]> (iter_index cu) in
        let cu' :=
          if c >? 0 then
            Cursor idx'
                   (in_ptr cu + at_ in_strides i * c)
                   (if flag is_mirrored_dim i
                    then out_ptr cu + at_ out_strides i * (at_ signal_half_sizes i - c)
                    else out_ptr cu + at_ out_strides i * c)
          else Cursor idx' (in_ptr cu) (out_ptr cu) in
        seek_loop n' (S i) linear_idx' cu'
    else Some cu
  end.

(** Lines 93-110; the divisions of lines 94-95 trap on an extent of [0]. *)
Definition seek (range : Range) (cu : cursor) : option cursor :=
  if range_begin range >? 0 then
    if at_ signal_half_sizes 0 =? 0 then None
    else
      let idx0 :=
        <[0%nat := Z.rem (range_begin range) (at_ signal_half_sizes 0)]> (iter_index cu) in
      let linear_idx := Z.quot (range_begin range) (at_ signal_half_sizes 0) in
      seek_loop (length signal_half_sizes - 1) 1 linear_idx
                (Cursor idx0 (in_ptr cu) (out_ptr cu))
  else Some cu.

(** One row of a mirrored dimension 0, columns [a .. e-1] with [a >= 1]. *)
Definition mirrored_columns (a e : Z) (cu : cursor) (h : heap) : heap :=
  for_lt a e
    (fun i h => write_conj (out_ptr cu + (at_ signal_half_sizes 0 - i) * at_ out_strides 0)
                           (in_ptr cu + i * at_ in_strides 0) h) h.

(** One row of a dimension 0 that is not mirrored, columns [a .. e-1]. *)
Definition plain_columns (a e : Z) (cu : cursor) (h : heap) : option heap :=
  for_ne a e
    (fun i h => write_conj (out_ptr cu + i * at_ out_strides 0)
                           (in_ptr cu + i * at_ in_strides 0) h) h.

Definition reset_column (cu : cursor) : cursor :=
  Cursor (<[0%nat := 0]> (iter_index cu)) (in_ptr cu) (out_ptr cu).

(** [while (numel_remaining > 0)] of the mirrored branch (lines 126-134);
    [None] when the fuel runs out. *)
Fixpoint mirrored_rows (fuel : nat) (numel_remaining : Z) (cu : cursor) (h : heap)
  : option heap :=
  if numel_remaining >? 0 then
    match fuel with
    | O => None
    | S fuel' =>
      let end_ := Z.min (at_ signal_half_sizes 0) numel_remaining in
      let h1 := write_conj (out_ptr cu + 0) (in_ptr cu + 0) h in
      let h2 := mirrored_columns 1 end_ cu h1 in
      mirrored_rows fuel' (numel_remaining - end_) (advance_index cu) h2
    end
  else Some h.

(** [while (numel_remaining > 0)] of the other branch (lines 137-145). *)
Fixpoint plain_rows (fuel : nat) (numel_remaining : Z) (cu : cursor) (h : heap)
  : option heap :=
  if numel_remaining >? 0 then
    match fuel with
    | O => None
    | S fuel' =>
      let end_ := Z.min (at_ signal_half_sizes 0) (at_ (iter_index cu) 0 + numel_remaining) in
      match plain_columns (at_ (iter_index cu) 0) end_ cu h with
      | None => None
      | Some h1 =>
        plain_rows fuel' (numel_remaining - (end_ - at_ (iter_index cu) 0))
                   (advance_index (reset_column cu)) h1
      end
    end
  else Some h.

(** The loops from the cursor at the start of the slice on (lines 112-146). *)
Definition fill_rows (range : Range) (cu : cursor) (h : heap) : option heap :=
  let numel_remaining := range_end range - range_begin range in
  let fuel := Z.to_nat numel_remaining in
  if flag is_mirrored_dim 0 then
    if at_ (iter_index cu) 0 >? 0 then
      let end_ := Z.min (at_ signal_half_sizes 0) (at_ (iter_index cu) 0 + numel_remaining) in
      let h1 := mirrored_columns (at_ (iter_index cu) 0) end_ cu h in
      mirrored_rows fuel (numel_remaining - (end_ - at_ (iter_index cu) 0))
                    (advance_index (reset_column cu)) h1
    else mirrored_rows fuel numel_remaining cu h
  else plain_rows fuel numel_remaining cu h.

(** The kernel. The result is [None] when the call does not return: a
    division by an extent of [0] traps at the start of the slice, or a
    [while] loop does not end. Every pass of either [while] loop with a
    positive extent in dimension 0 lowers [numel_remaining] by at least one,
    so the fuel [numel_remaining] is never exhausted then; with an extent of
    [0] or less the source loops forever. *)
Definition _fft_fill_with_conjugate_symmetry_slice
    (range : Range) (in_ptr0 out_ptr0 : Z) (h : heap) : option heap :=
  let ndim := length signal_half_sizes in
  match seek range (Cursor (replicate ndim 0) in_ptr0 out_ptr0) with
  | None => None
  | Some cu => fill_rows range cu h
  end.

End Kernel.

(** ** The CPU driver *)

Inductive fill_error : Type :=
| InternalAssertFailed                (* TORCH_INTERNAL_ASSERT *)
| NotImplementedFor (dtype : ScalarType).  (* AT_DISPATCH_COMPLEX_TYPES *)

(** The loop that converts strides from bytes to elements (lines 158-163). *)
Fixpoint strides_to_elements (element_size : Z) (in_bytes out_bytes : list Z)
    (n : nat) (i : nat) (in_strides out_strides : list Z)
  : fill_error + list Z * list Z :=
  match n with
  | O => inr (in_strides, out_strides)
  | S n' =>
    if negb (Z.rem (at_ in_bytes i) element_size =? 0) then inl InternalAssertFailed
    else
      let in_strides' := <[i := Z.quot (at_ in_bytes i) element_size]> in_strides in
      if negb (Z.rem (at_ out_bytes i) element_size =? 0) then inl InternalAssertFailed
      else
        let out_strides' := <[i := Z.quot (at_ out_bytes i) element_size]> out_strides in
        strides_to_elements element_size in_bytes out_bytes n' (S i)
                            in_strides' out_strides'
  end.

(** The boolean mask of the mirrored dimensions (lines 166-169). The entries
    of [mirror_dims] are dimensions [0 <= dim < ndim]; another value is an
    access out of range in the source. *)
Definition mirror_mask (ndim : nat) (mirror_dims : list Z) : list bool :=
  fold_left (fun mask dim => <[Z.to_nat dim := true]> mask) mirror_dims
            (replicate ndim false).

Section Driver.

Context {T : Type} (neg : T -> T).

(** [scalarTypeToTypeMeta(dtype).itemsize()], from the tensor library. *)
Variable itemsize : ScalarType -> Z.

(** The calls made by [at::parallel_for], one per chunk; the chunks are run
    here one after the other, in the order of the list. *)
Fixpoint run_chunks (is_mirrored_dim : list bool)
    (signal_half_sizes in_strides out_strides : list Z)
    (chunks : list Range) (in_data out_data : Z) (h : heap (T:=T)) : option heap :=
  match chunks with
  | [] => Some h
  | range :: chunks' =>
    match _fft_fill_with_conjugate_symmetry_slice neg is_mirrored_dim
            signal_half_sizes in_strides out_strides range in_data out_data h with
    | Some h' => run_chunks is_mirrored_dim signal_half_sizes in_strides out_strides
                            chunks' in_data out_data h'
    | None => None
    end
  end.

(** [parallel_for] is the partitioning utility of the tensor library: it
    takes the range [0, numel) and returns the chunks it hands out. The data
    pointers are element addresses. The result is [None] when a slice call
    has no result. *)
Definition _fft_fill_with_conjugate_symmetry_cpu_
    (parallel_for : Z -> Z -> list Range)
    (dtype : ScalarType) (mirror_dims : list Z) (signal_half_sizes : list Z)
    (in_strides_bytes : list Z) (in_data : Z)
    (out_strides_bytes : list Z) (out_data : Z) (h : heap (T:=T))
  : option (fill_error + heap (T:=T)) :=
  let element_size := itemsize dtype in
  let ndim := length signal_half_sizes in
  match strides_to_elements element_size in_strides_bytes out_strides_bytes ndim 0
          (replicate ndim 0) (replicate ndim 0) with
  | inl e => Some (inl e)
  | inr (in_strides, out_strides) =>
    let is_mirrored_dim := mirror_mask ndim mirror_dims in
    let numel := prod_intlist signal_half_sizes in
    match dtype with
    | ComplexFloat | ComplexDouble =>
      match run_chunks is_mirrored_dim signal_half_sizes in_strides out_strides
              (parallel_for 0 numel) in_data out_data h with
      | Some h' => Some (inr h')
      | None => None
      end
    | _ => Some (inl (NotImplementedFor dtype))
    end
  end.

End Driver.

(** An exact partition of [b, e) into contiguous chunks. *)
Fixpoint partitions (b e : Z) (chunks : list Range) : Prop :=
  match chunks with
  | [] => b = e
  | range :: chunks' =>
    range_begin range = b /\ b <= range_end range /\
    partitions (range_end range) e chunks'
  end.

(** ** What the kernel is meant to write

    The half index space is the Cartesian product of [signal_half_sizes],
    flattened with dimension 0 varying fastest. *)

(** Coordinates of the linear index [k] (the unravel-index function). *)
Fixpoint unravel (sizes : list Z) (k : Z) : list Z :=
  match sizes with
  | [] => []
  | s :: sizes' => (k mod s) :: unravel sizes' (k / s)
  end.

(** Destination coordinate of the source coordinate [c] in a dimension of
    extent [s]: [0] stays, [c > 0] goes to [s - c] when the dimension is
    mirrored. *)
Definition reflect (m : bool) (s c : Z) : Z :=
  if m && (c >? 0) then s - c else c.

Fixpoint mirror (ms : list bool) (sizes c : list Z) : list Z :=
  match ms, sizes, c with
  | m :: ms', s :: sizes', ci :: c' => reflect m s ci :: mirror ms' sizes' c'
  | _, _, _ => []
  end.

(** Flat offset of a coordinate under a list of strides. *)
Fixpoint dot (c strides : list Z) : Z :=
  match c, strides with
  | ci :: c', st :: strides' => ci * st + dot c' strides'
  | _, _ => 0
  end.

Section Offsets.

Variable is_mirrored_dim : list bool.
Variable signal_half_sizes : list Z.
Variable in_strides : list Z.
Variable out_strides : list Z.

(** The same quantities read by index, over the [n] dimensions from [i]
    on, the way the loops of the kernel visit them. *)
Fixpoint coords (n i : nat) (r : Z) : list Z :=
  match n with
  | O => []
  | S n' => (r mod at_ signal_half_sizes i)
              :: coords n' (S i) (r / at_ signal_half_sizes i)
  end.

Fixpoint in_offset (n i : nat) (r : Z) : Z :=
  match n with
  | O => 0
  | S n' => (r mod at_ signal_half_sizes i) * at_ in_strides i
            + in_offset n' (S i) (r / at_ signal_half_sizes i)
  end.

Fixpoint out_offset (n i : nat) (r : Z) : Z :=
  match n with
  | O => 0
  | S n' => reflect (flag is_mirrored_dim i) (at_ signal_half_sizes i)
                    (r mod at_ signal_half_sizes i) * at_ out_strides i
            + out_offset n' (S i) (r / at_ signal_half_sizes i)
  end.

(** Every extent among the [n] dimensions from [i] on is positive. *)
Fixpoint sizes_positive (n i : nat) : bool :=
  match n with
  | O => true
  | S n' => (0 <? at_ signal_half_sizes i) && sizes_positive n' (S i)
  end.

(** No mirrored dimension among the [n] dimensions from [i] on has extent 1. *)
Fixpoint mirrored_extents_ok (n i : nat) : bool :=
  match n with
  | O => true
  | S n' => implb (flag is_mirrored_dim i) (2 <=? at_ signal_half_sizes i)
            && mirrored_extents_ok n' (S i)
  end.

(** The assignment made for the linear index [k]: destination and source
    address. *)
Definition write_of (in_ptr0 out_ptr0 : Z) (k : Z) : Z * Z :=
  (out_ptr0 + dot (mirror is_mirrored_dim signal_half_sizes (unravel signal_half_sizes k))
                  out_strides,
   in_ptr0 + dot (unravel signal_half_sizes k) in_strides).

(** A cursor standing on row [r], with [a] in its column slot. *)
Definition cursor_at (in_ptr0 out_ptr0 : Z) (r a : Z) (cu : cursor) : Prop :=
  let n := (length signal_half_sizes - 1)%nat in
  iter_index cu = a :: coords n 1 r /\
  in_ptr cu = in_ptr0 + in_offset n 1 r /\
  out_ptr cu = out_ptr0 + out_offset n 1 r.

(** The assignment for the linear index [k], with the offsets read by
    index. *)
Definition wr (in_ptr0 out_ptr0 : Z) (k : Z) : Z * Z :=
  (out_ptr0 + out_offset (length signal_half_sizes) 0 k,
   in_ptr0 + in_offset (length signal_half_sizes) 0 k).

End Offsets.

Section Exec.

Context {T : Type} (neg : T -> T).

(** Running a list of assignments in order. *)
Definition exec (ws : list (Z * Z)) (h : heap (T:=T)) : heap :=
  fold_left (fun h w => write_conj neg (fst w) (snd w) h) ws h.

End Exec.
End Fill.


(** * Concrete inputs *)

Module Examples.

(** A memory over Gaussian integers that holds the list [l] from the
    address [base] on and zero elsewhere. *)
Definition load (base : Z) (l : list (complex Z)) : Z -> complex Z :=
  fun a =>
    if base <=? a then default (Complex 0 0) (l !! Z.to_nat (a - base))
    else Complex 0 0.

Definition fresh (m : Z -> complex Z) : Fill.heap (T:=Z) := Fill.Heap m [].

(** The values found at a list of addresses after a run. *)
Definition read (addresses : list Z) (r : option (Fill.heap (T:=Z)))
  : option (list (complex Z)) :=
  option_map (fun h => map (Fill.mem h) addresses) r.

(** The half spectrum [2+0i, 1+1i, 0+1i] at the addresses 0..2; the output
    buffer is at the addresses 10..13. *)
Definition half_spectrum : Z -> complex Z :=
  load 0 [Complex 2 0; Complex 1 1; Complex 0 1].

(** Four values at the addresses 0..3. *)
Definition four_values : Z -> complex Z :=
  load 0 [Complex 1 1; Complex 2 2; Complex 3 3; Complex 4 4].

(** Two values at the addresses 0..1. *)
Definition two_values : Z -> complex Z :=
  load 0 [Complex 1 1; Complex 2 3].

(** Element sizes in bytes. *)
Definition itemsize (dtype : ScalarType) : Z :=
  match dtype with
  | Float => 4
  | Double => 8
  | ComplexFloat => 8
  | ComplexDouble => 16
  | OtherType _ => 1
  end.

(** The driver on extents (2, 1, 2) of double-precision complex numbers
    with contiguous strides, for a given list of mirrored dimensions and a
    given schedule of chunks. *)
Definition run_driver (mirror_dims : list Z) (chunks : list Range)
  : option (Fill.heap (T:=Z)) :=
  match Fill._fft_fill_with_conjugate_symmetry_cpu_ Z.opp itemsize (fun _ _ => chunks)
          ComplexDouble mirror_dims [2; 1; 2] [16; 32; 32] 0 [16; 32; 32] 10
          (fresh four_values) with
  | Some (inr h) => Some h
  | _ => None
  end.

(** The middle dimension, of extent 1, flagged as mirrored or not. *)
Definition run_flagged : list Range -> option (Fill.heap (T:=Z)) := run_driver [1].
Definition run_unflagged : list Range -> option (Fill.heap (T:=Z)) := run_driver [].

End Examples.

(** * The transform configurator *)

Module Mkl.

(** The tensor metadata read by [_fft_mkl]. [Tensor::size] and
    [Tensor::stride] raise on a dimension that does not exist; the
    requests considered have every dimension that is read. *)
Record Tensor : Type := mkTensor {
  sizes : list Z;
  strides : list Z;
  scalar_type : ScalarType;
}.

Definition size (t : Tensor) (i : nat) : Z := at_ (sizes t) i.
Definition stride (t : Tensor) (i : nat) : Z := at_ (strides t) i.
(** [t.stride(-1)]. *)
Definition last_stride (t : Tensor) : Z := at_ (strides t) (length (strides t) - 1).

(** Modelled from the spec: the tensor layer's allocation of
    contiguous-memory buffers is not among the sources. A contiguous buffer
    of the given extents has row-major strides. *)
Fixpoint contiguous_strides (sizes : list Z) : list Z :=
  match sizes with
  | [] => []
  | _ :: rest => prod_intlist rest :: contiguous_strides rest
  end.

(** Modelled from the spec: [Tensor::contiguous] is not among the sources.
    The layout-normalising copy has the extents and the element type of the
    tensor and is contiguous. *)
Definition contiguous_layout (t : Tensor) : Tensor :=
  mkTensor (sizes t) (contiguous_strides (sizes t)) (scalar_type t).

(** Modelled from the spec: [at::empty] is not among the sources. A newly
    allocated buffer of the given extents is contiguous. *)
Definition empty_layout (sizes : list Z) (dtype : ScalarType) : Tensor :=
  mkTensor sizes (contiguous_strides sizes) dtype.

(** Modelled from the spec: the complex element type of a precision. *)
Definition complex_type (dtype : ScalarType) : ScalarType :=
  match dtype with
  | Float => ComplexFloat
  | Double => ComplexDouble
  | other => other
  end.

(** Modelled from the spec: [at::view_as_complex] is not among the sources.
    The complex-element view drops the trailing dimension of extent 2 and
    counts the strides in complex elements. *)
Definition view_as_complex (t : Tensor) : Tensor :=
  mkTensor (removelast (sizes t))
           (map (fun s => Z.quot s 2) (removelast (strides t)))
           (complex_type (scalar_type t)).

(** ** The engine interface *)

Inductive DFTI_CONFIG_VALUE : Type :=
| DFTI_SINGLE | DFTI_DOUBLE | DFTI_REAL | DFTI_COMPLEX
| DFTI_NOT_INPLACE | DFTI_COMPLEX_COMPLEX.

Inductive DFTI_CONFIG_PARAM : Type :=
| DFTI_PLACEMENT | DFTI_NUMBER_OF_TRANSFORMS
| DFTI_INPUT_DISTANCE | DFTI_OUTPUT_DISTANCE
| DFTI_INPUT_STRIDES | DFTI_OUTPUT_STRIDES
| DFTI_CONJUGATE_EVEN_STORAGE
| DFTI_FORWARD_SCALE | DFTI_BACKWARD_SCALE.

(** The scale factor is a floating-point number; it is kept as the
    expression that computes it. *)
Inductive scale_expr : Type :=
| InvSqrt (signal_numel : Z)   (* 1.0 / std::sqrt(static_cast<double>(signal_numel)) *)
| Inv (signal_numel : Z).      (* 1.0 / static_cast<double>(signal_numel) *)

Inductive dfti_arg : Type :=
| ArgValue (v : DFTI_CONFIG_VALUE)
| ArgLong (z : Z)
| ArgLongs (l : list Z)
| ArgDouble (e : scale_expr)               (* double_scale *)
| ArgFloat (e : scale_expr).               (* static_cast<float>(double_scale) *)

Inductive dfti_call : Type :=
| DescriptorInit (prec signal_type : DFTI_CONFIG_VALUE) (signal_ndim : Z)
                 (mkl_signal_sizes : list Z)
| DftiSetValue (param : DFTI_CONFIG_PARAM) (arg : dfti_arg)
| DftiCommitDescriptor
| DftiComputeForward (input output : Tensor)
| DftiComputeBackward (input output : Tensor).

(** What [_fft_mkl] asks of its collaborators, in program order. *)
Inductive event : Type :=
| EvContiguous (t : Tensor)                  (* t.contiguous() *)
| EvEmpty (sizes : list Z) (dtype : ScalarType)  (* at::empty *)
| EvDfti (c : dfti_call)
| EvViewAsComplex (t : Tensor)
| EvFillConjugateSymmetry (out_as_complex : Tensor) (signal_dims : list Z).

Inductive error : Type :=
| SizeExceeded                          (* "MKL FFT: input signal numel exceeds ..." *)
| UnsupportedType (dtype : ScalarType)  (* "MKL FFT doesn't support tensor of type" *)
| EngineError (c : dfti_call).          (* MKL_DFTI_CHECK *)

(** Computations that log events and may raise. *)
Definition M (A : Type) : Type := list event -> (error + A) * list event.

Definition ret {A : Type} (a : A) : M A := fun log => (inr a, log).

Definition throw {A : Type} (e : error) : M A := fun log => (inl e, log).

Definition bind {A B : Type} (m : M A) (k : A -> M B) : M B :=
  fun log =>
    match m log with
    | (inl e, log') => (inl e, log')
    | (inr a, log') => k a log'
    end.

Definition emit (ev : event) : M unit := fun log => (inr tt, log ++ [ev]).

Notation "x <- m ;; k" := (bind m (fun x => k))
  (at level 100, m at next level, right associativity).
Notation "m ;; k" := (bind m (fun _ => k))
  (at level 100, right associativity).

(** [TORCH_CHECK(cond, "MKL FFT: input signal numel exceeds allowed range")]. *)
Definition TORCH_CHECK (cond : bool) : M unit :=
  if cond then ret tt else throw SizeExceeded.

Definition when (cond : bool) (m : M unit) : M unit :=
  if cond then m else ret tt.

(** [m] only appends events, and each of them satisfies [P]. *)
Definition emits {A : Type} (P : event -> Prop) (m : M A) : Prop :=
  forall log, exists evs, snd (m log) = log ++ evs /\ Forall P evs.

(** Some stride among the dimensions [i .. i+n-1] is odd. *)
Definition some_odd_stride (t : Tensor) (i n : nat) : bool :=
  existsb (fun j => negb (Z.rem (stride t j) 2 =? 0)) (seq i n).

(** The condition of lines 198-201. *)
Definition needs_alignment (self : Tensor) (signal_ndim : Z) : bool :=
  negb (last_stride self =? 1)
  || some_odd_stride self 0 (Z.to_nat (signal_ndim + 1)).

(** The number of elements of the first [k] dimensions. *)
Fixpoint extent_product (sizes : list Z) (k : nat) : Z :=
  match k with
  | O => 1
  | S i => at_ sizes i * extent_product sizes i
  end.

(** Every extent of the first [k] dimensions lies in [1 .. bound]. *)
Fixpoint extents_within (bound : Z) (sizes : list Z) (k : nat) : bool :=
  match k with
  | O => true
  | S i => (1 <=? at_ sizes i) && (at_ sizes i <=? bound) && extents_within bound sizes i
  end.

Section Configurator.

(** [sizeof(MKL_LONG) < sizeof(int64_t)] and [MKL_LONG_MAX], from
    [ATen/mkl/Limits.h] and the engine's headers. *)
Variable MKL_LONG_is_narrow : bool.
Variable MKL_LONG_MAX : Z.

(** The enumerators [fft_norm_mode::none] and [fft_norm_mode::by_root_n] of
    [ATen/native/SpectralOpsUtils.h], as integers. *)
Variable fft_norm_mode_none : Z.
Variable fft_norm_mode_by_root_n : Z.

(** The engine is a black box: whether it accepts a call may depend on
    everything that happened before. *)
Variable dfti_status : list event -> dfti_call -> bool.

(** [MKL_DFTI_CHECK(call)]. *)
Definition MKL_DFTI_CHECK (c : dfti_call) : M unit :=
  fun log =>
    if dfti_status log c then (inr tt, log ++ [EvDfti c])
    else (inl (EngineError c), log ++ [EvDfti c]).

(** Conversion of an [int64_t] to [MKL_LONG]: the value wraps around when
    [MKL_LONG] is the narrower type. *)
Definition to_MKL_LONG (x : Z) : Z :=
  if MKL_LONG_is_narrow
  then (x + (MKL_LONG_MAX + 1)) mod (2 * (MKL_LONG_MAX + 1)) - (MKL_LONG_MAX + 1)
  else x.

(** The loop of lines 199-201, from dimension [i] on, [n] iterations left. *)
Fixpoint odd_stride_loop (input : Tensor) (n : nat) (i : nat) (need_contiguous : bool)
  : bool :=
  match n with
  | O => need_contiguous
  | S n' =>
    if negb need_contiguous then
      odd_stride_loop input n' (S i)
        (need_contiguous || negb (Z.rem (stride input i) 2 =? 0))
    else need_contiguous
  end.

(** Lines 197-205. *)
Definition align_complex_input (self : Tensor) (signal_ndim : Z) (complex_input : bool)
  : M Tensor :=
  if complex_input then
    let need_contiguous := negb (last_stride self =? 1) in
    let need_contiguous :=
      odd_stride_loop self (Z.to_nat (signal_ndim + 1)) 0 need_contiguous in
    if need_contiguous then
      emit (EvContiguous self) ;; ret (contiguous_layout self)
    else ret self
  else ret self.

(** The loop of lines 215-234; [k] is the number of iterations left, so the
    body runs for the dimension [i = k - 1]. The loop returns the last value
    of its local [need_contiguous]. *)
Fixpoint preflight_loop (input : Tensor) (complex_input : bool) (output_sizes : list Z)
    (k : nat) (need_contiguous : bool) (inumel onumel : Z) : M bool :=
  match k with
  | O => ret need_contiguous
  | S i =>
    let isize := size input i in
    let osize := at_ output_sizes i in
    let istride := if complex_input then Z.shiftr (stride input i) 1 else stride input i in
    let ostride := onumel in
    TORCH_CHECK ((isize <=? MKL_LONG_MAX) && (osize <=? MKL_LONG_MAX)
                 && (ostride <=? MKL_LONG_MAX)) ;;
    let need_contiguous :=
      if negb need_contiguous && (istride >? MKL_LONG_MAX) then true
      else need_contiguous in
    TORCH_CHECK (negb need_contiguous || (inumel <=? MKL_LONG_MAX)) ;;
    preflight_loop input complex_input output_sizes i need_contiguous
                   (inumel * isize) (onumel * osize)
  end.

(** Lines 211-235. The flag computed by the loop goes out of scope with the
    block. *)
Definition preflight (input : Tensor) (signal_ndim : Z) (complex_input : bool)
    (output_sizes : list Z) : M unit :=
  when MKL_LONG_is_narrow
    (_ <- preflight_loop input complex_input output_sizes
                         (Z.to_nat (signal_ndim + 1)) false 1 1 ;;
     ret tt).

(** Lines 239-249. *)
Definition select_precision (input : Tensor) : M DFTI_CONFIG_VALUE :=
  match scalar_type input with
  | Float => ret DFTI_SINGLE
  | Double => ret DFTI_DOUBLE
  | other => throw (UnsupportedType other)
  end.

(** The strides handed to the engine (lines 275-279): a zero offset, then
    one stride per signal dimension [1 .. signal_ndim]. *)
Definition mkl_strides (is_complex : bool) (strides : list Z) (signal_ndim : Z) : list Z :=
  0 :: map (fun i => to_MKL_LONG (if is_complex then Z.shiftr (at_ strides i) 1
                                  else at_ strides i))
           (seq 1 (Z.to_nat signal_ndim)).

Definition is_double (prec : DFTI_CONFIG_VALUE) : bool :=
  match prec with DFTI_DOUBLE => true | _ => false end.

(** Lines 288-300. *)
Definition rescale (prec : DFTI_CONFIG_VALUE) (inverse : bool)
    (checked_signal_sizes : list Z) (normalization : Z) : M unit :=
  let norm := normalization in
  when (negb (norm =? fft_norm_mode_none))
    (let signal_numel := prod_intlist checked_signal_sizes in
     let double_scale :=
       if norm =? fft_norm_mode_by_root_n then InvSqrt signal_numel
       else Inv signal_numel in
     MKL_DFTI_CHECK
       (DftiSetValue (if inverse then DFTI_BACKWARD_SCALE else DFTI_FORWARD_SCALE)
                     (if is_double prec then ArgDouble double_scale
                      else ArgFloat double_scale))).

(** Lines 310-315. *)
Definition fill_other_half (output : Tensor) (signal_ndim : Z)
    (complex_input complex_output onesided : bool) : M unit :=
  when (negb complex_input && complex_output && negb onesided)
    (let signal_dims := seqZ 1 signal_ndim in
     emit (EvViewAsComplex output) ;;
     let out_as_complex := view_as_complex output in
     emit (EvFillConjugateSymmetry out_as_complex signal_dims)).

Definition _fft_mkl (self : Tensor) (signal_ndim : Z)
    (complex_input complex_output inverse : bool) (checked_signal_sizes : list Z)
    (normalization : Z) (onesided : bool) (output_sizes : list Z) : M Tensor :=
  let batch := size self 0 in
  input <- align_complex_input self signal_ndim complex_input ;;
  preflight input signal_ndim complex_input output_sizes ;;
  emit (EvEmpty output_sizes (scalar_type input)) ;;
  let output := empty_layout output_sizes (scalar_type input) in
  prec <- select_precision input ;;
  let signal_type :=
    if negb inverse
    then (if complex_input then DFTI_COMPLEX else DFTI_REAL)
    else (if complex_output then DFTI_COMPLEX else DFTI_REAL) in
  let mkl_signal_sizes := map to_MKL_LONG checked_signal_sizes in
  MKL_DFTI_CHECK (DescriptorInit prec signal_type signal_ndim mkl_signal_sizes) ;;
  MKL_DFTI_CHECK (DftiSetValue DFTI_PLACEMENT (ArgValue DFTI_NOT_INPLACE)) ;;
  MKL_DFTI_CHECK (DftiSetValue DFTI_NUMBER_OF_TRANSFORMS (ArgLong batch)) ;;
  let istrides := strides input in
  let ostrides := strides output in
  let idist := to_MKL_LONG (if complex_input then Z.shiftr (at_ istrides 0) 1
                            else at_ istrides 0) in
  let odist := to_MKL_LONG (if complex_output then Z.shiftr (at_ ostrides 0) 1
                            else at_ ostrides 0) in
  MKL_DFTI_CHECK (DftiSetValue DFTI_INPUT_DISTANCE (ArgLong idist)) ;;
  MKL_DFTI_CHECK (DftiSetValue DFTI_OUTPUT_DISTANCE (ArgLong odist)) ;;
  let mkl_istrides := mkl_strides complex_input istrides signal_ndim in
  let mkl_ostrides := mkl_strides complex_output ostrides signal_ndim in
  MKL_DFTI_CHECK (DftiSetValue DFTI_INPUT_STRIDES (ArgLongs mkl_istrides)) ;;
  MKL_DFTI_CHECK (DftiSetValue DFTI_OUTPUT_STRIDES (ArgLongs mkl_ostrides)) ;;
  when (negb complex_input || negb complex_output)
    (MKL_DFTI_CHECK (DftiSetValue DFTI_CONJUGATE_EVEN_STORAGE
                                  (ArgValue DFTI_COMPLEX_COMPLEX))) ;;
  rescale prec inverse checked_signal_sizes normalization ;;
  MKL_DFTI_CHECK DftiCommitDescriptor ;;
  (if negb inverse
   then MKL_DFTI_CHECK (DftiComputeForward input output)
   else MKL_DFTI_CHECK (DftiComputeBackward input output)) ;;
  fill_other_half output signal_ndim complex_input complex_output onesided ;;
  ret output.

(** The events of a run that returns (lemma [MklFacts.completed_run]). *)
Definition completed_events (self : Tensor) (signal_ndim : Z)
    (complex_input complex_output inverse : bool) (checked_signal_sizes : list Z)
    (normalization : Z) (onesided : bool) (output_sizes : list Z) : list event :=
  let aligned := complex_input && needs_alignment self signal_ndim in
  let input := if aligned then contiguous_layout self else self in
  let output := empty_layout output_sizes (scalar_type self) in
  let prec := match scalar_type self with Double => DFTI_DOUBLE | _ => DFTI_SINGLE end in
  let to_long := to_MKL_LONG in
  let halved (is_complex : bool) (x : Z) := if is_complex then Z.shiftr x 1 else x in
  let strides_of := mkl_strides in
  (if aligned then [EvContiguous self] else [])
  ++ [EvEmpty output_sizes (scalar_type self)]
  ++ map EvDfti
       ([DescriptorInit prec
           (if negb inverse
            then (if complex_input then DFTI_COMPLEX else DFTI_REAL)
            else (if complex_output then DFTI_COMPLEX else DFTI_REAL))
           signal_ndim (map to_long checked_signal_sizes);
         DftiSetValue DFTI_PLACEMENT (ArgValue DFTI_NOT_INPLACE);
         DftiSetValue DFTI_NUMBER_OF_TRANSFORMS (ArgLong (size self 0));
         DftiSetValue DFTI_INPUT_DISTANCE
           (ArgLong (to_long (halved complex_input (at_ (strides input) 0))));
         DftiSetValue DFTI_OUTPUT_DISTANCE
           (ArgLong (to_long (halved complex_output (at_ (strides output) 0))));
         DftiSetValue DFTI_INPUT_STRIDES
           (ArgLongs (strides_of complex_input (strides input) signal_ndim));
         DftiSetValue DFTI_OUTPUT_STRIDES
           (ArgLongs (strides_of complex_output (strides output) signal_ndim))]
        ++ (if negb complex_input || negb complex_output
            then [DftiSetValue DFTI_CONJUGATE_EVEN_STORAGE (ArgValue DFTI_COMPLEX_COMPLEX)]
            else [])
        ++ (if negb (normalization =? fft_norm_mode_none)
            then [DftiSetValue
                    (if inverse then DFTI_BACKWARD_SCALE else DFTI_FORWARD_SCALE)
                    (let double_scale :=
                       if normalization =? fft_norm_mode_by_root_n
                       then InvSqrt (prod_intlist checked_signal_sizes)
                       else Inv (prod_intlist checked_signal_sizes) in
                     if is_double prec then ArgDouble double_scale
                     else ArgFloat double_scale)]
            else [])
        ++ [DftiCommitDescriptor;
            if negb inverse then DftiComputeForward input output
            else DftiComputeBackward input output])
  ++ (if negb complex_input && complex_output && negb onesided
      then [EvViewAsComplex output;
            EvFillConjugateSymmetry (view_as_complex output) (seqZ 1 signal_ndim)]
      else []).

End Configurator.

(** ** Reading a log *)

Definition is_contiguous_event (ev : event) : bool :=
  match ev with EvContiguous _ => true | _ => false end.

Definition is_engine_event (ev : event) : bool :=
  match ev with EvDfti _ => true | _ => false end.

Definition is_scale_event (ev : event) : bool :=
  match ev with
  | EvDfti (DftiSetValue DFTI_FORWARD_SCALE _)
  | EvDfti (DftiSetValue DFTI_BACKWARD_SCALE _) => true
  | _ => false
  end.

Definition is_fill_event (ev : event) : bool :=
  match ev with EvFillConjugateSymmetry _ _ => true | _ => false end.

End Mkl.

(** * Concrete transform requests *)

Module MklExamples.
Import Mkl.

(** A platform where [MKL_LONG] has 32 bits, one where it has 64 bits, and
    an engine that accepts every call. The normalization modes are numbered
    [none = 0], [by_root_n = 1]. *)
Definition accept_all : list event -> dfti_call -> bool := fun _ _ => true.

Definition fft_narrow := _fft_mkl true 2147483647 0 1 accept_all.
Definition fft_wide := _fft_mkl false 9223372036854775807 0 1 accept_all.

(** A real single-precision input of extents (1, 2) whose strides,
    (2^33, 2^32), exceed the 32-bit range although it has two elements. *)
Definition wide_stride_input : Tensor :=
  mkTensor [1; 2] [8589934592; 4294967296] Float.

(** A complex double-precision input of extents (2, 4, 2): the pair stride
    is 1, the stride of the transformed dimension is 2, the batch stride
    is 9. *)
Definition odd_batch_stride_input : Tensor :=
  mkTensor [2; 4; 2] [9; 2; 1] Double.

(** A one-dimensional batch of 2^31 integers. *)
Definition oversized_int_input : Tensor :=
  mkTensor [1; 2147483648] [2147483648; 1] (OtherType 3).

(** A contiguous real single-precision batch of extents (2, 8). *)
Definition real_input : Tensor := mkTensor [2; 8] [8; 1] Float.

(** A real batch of an unsupported element type. *)
Definition int_input : Tensor := mkTensor [2; 8] [8; 1] (OtherType 3).

End MklExamples.

(** * Packed layouts *)

Module Layout.

(** The strides of a buffer that holds the index space without gaps, with
    dimension 0 varying fastest: [unit], [unit * s0], [unit * s0 * s1], ... *)
Fixpoint packed_strides (unit : Z) (sizes : list Z) : list Z :=
  match sizes with
  | [] => []
  | s :: rest => unit :: packed_strides (unit * s) rest
  end.

(** Linear index of a coordinate, the inverse of [Fill.unravel]. *)
Fixpoint ravel (sizes c : list Z) : Z :=
  match sizes, c with
  | s :: sizes', ci :: c' => ci + s * ravel sizes' c'
  | _, _ => 0
  end.

(** A coordinate of the index space. *)
Definition in_bounds (c sizes : list Z) : Prop :=
  Forall2 (fun ci s => 0 <= ci < s) c sizes.

(** The element strides of a list of byte strides. *)
Definition element_strides (element_size : Z) (bytes : list Z) : list Z :=
  map (fun b => Z.quot b element_size) bytes.

(** Every byte stride is a multiple of the element size. *)
Definition whole_elements (element_size : Z) (bytes : list Z) : bool :=
  forallb (fun b => Z.rem b element_size =? 0) bytes.

(** The mask that flags the dimensions listed in [mirror_dims]. *)
Definition mask_of (ndim : nat) (mirror_dims : list Z) : list bool :=
  map (fun i => existsb (fun d => d =? Z.of_nat i) mirror_dims) (seq 0 ndim).

(** Every listed dimension exists. *)
Definition dims_in_range (ndim : nat) (mirror_dims : list Z) : bool :=
  forallb (fun d => (0 <=? d) && (d <? Z.of_nat ndim)) mirror_dims.

(** The assignments of a run over the whole index space of packed buffers. *)
Definition packed_writes (ms : list bool) (ss : list Z) (in0 out0 : Z) : list (Z * Z) :=
  map (fun k => (out0 + ravel ss (Fill.mirror ms ss (Fill.unravel ss k)), in0 + k))
      (seqZ 0 (prod_intlist ss)).

End Layout.

(** * Outcomes of the configurator *)

Module Outcome.
Import Mkl.

(** Whenever [m] raises, the error and the log at that point satisfy [E]. *)
Definition raises_only {A : Type} (E : error -> list event -> Prop) (m : M A) : Prop :=
  forall log e log', m log = (inl e, log') -> E e log'.


(** The tensor the engine works on: the contiguous copy of a complex input
    that needed one, the input itself otherwise. *)
Definition engine_input (self : Tensor) (signal_ndim : Z) (complex_input : bool) : Tensor :=
  if complex_input && needs_alignment self signal_ndim then contiguous_layout self
  else self.

(** The input stride of dimension [i] in the unit the engine counts in. *)
Definition engine_stride (input : Tensor) (complex_input : bool) (i : nat) : Z :=
  if complex_input then Z.shiftr (stride input i) 1 else stride input i.

Definition is_descriptor_event (ev : event) : bool :=
  match ev with EvDfti (DescriptorInit _ _ _ _) => true | _ => false end.

Definition is_storage_event (ev : event) : bool :=
  match ev with
  | EvDfti (DftiSetValue DFTI_CONJUGATE_EVEN_STORAGE _) => true
  | _ => false
  end.


End Outcome.

Module FillFacts.
Import Fill.

(** ** Arithmetic of mixed-radix counting *)

Lemma succ_no_carry (r s : Z) :
  0 <= r -> 0 < s -> r mod s + 1 < s ->
  (r + 1) mod s = r mod s + 1 /\ (r + 1) / s = r / s.
Proof.
  intros Hr Hs Hc.
  pose proof (Z.div_mod r s ltac:(lia)) as E.
  pose proof (Z.mod_pos_bound r s Hs) as B.
  split; symmetry.
  - apply (Z.mod_unique _ _ (r / s)); lia.
  - apply (Z.div_unique _ _ _ (r mod s + 1)); lia.
Qed.

Lemma succ_carry (r s : Z) :
  0 <= r -> 0 < s -> ~ (r mod s + 1 < s) ->
  (r + 1) mod s = 0 /\ (r + 1) / s = r / s + 1 /\ r mod s = s - 1.
Proof.
  intros Hr Hs Hc.
  pose proof (Z.div_mod r s ltac:(lia)) as E.
  pose proof (Z.mod_pos_bound r s Hs) as B.
  assert (r mod s = s - 1) as Hm by lia.
  repeat split; [symmetry .. | exact Hm].
  - apply (Z.mod_unique _ _ (r / s + 1)); lia.
  - apply (Z.div_unique _ _ _ 0); lia.
Qed.

Lemma row_column (r s j : Z) :
  0 < s -> 0 <= j < s -> (r * s + j) mod s = j /\ (r * s + j) / s = r.
Proof.
  intros Hs Hj. split; symmetry.
  - apply (Z.mod_unique _ _ r); lia.
  - apply (Z.div_unique _ _ _ j); lia.
Qed.

(** ** Array reads *)

Lemma drop_at (l : list Z) (i : nat) :
  (i < length l)%nat -> drop i l = at_ l i :: drop (S i) l.
Proof.
  intros H. destruct (lookup_lt_is_Some_2 l i H) as [x Hx].
  unfold at_. rewrite Hx. simpl. now apply drop_S.
Qed.

Lemma drop_flag (l : list bool) (i : nat) :
  (i < length l)%nat -> drop i l = flag l i :: drop (S i) l.
Proof.
  intros H. destruct (lookup_lt_is_Some_2 l i H) as [x Hx].
  unfold flag. rewrite Hx. simpl. now apply drop_S.
Qed.

Lemma at_of_drop (l : list Z) (i : nat) (x : Z) (t : list Z) :
  drop i l = x :: t -> at_ l i = x.
Proof.
  intros H. unfold at_.
  assert (drop i l !! 0%nat = Some x) as H0 by now rewrite H.
  rewrite lookup_drop, Nat.add_0_r in H0. now rewrite H0.
Qed.

Lemma insert_at_drop (l : list Z) (i : nat) (x : Z) :
  (i < length l)%nat -> <[i := x]> l = take i l ++ x :: drop (S i) l.
Proof. intros H. now apply insert_take_drop. Qed.

Section Cursor.

Variable is_mirrored_dim : list bool.
Variable signal_half_sizes : list Z.
Variable in_strides : list Z.
Variable out_strides : list Z.

Local Abbreviation coords := (coords signal_half_sizes).
Local Abbreviation in_offset := (in_offset signal_half_sizes in_strides).
Local Abbreviation out_offset := (out_offset is_mirrored_dim signal_half_sizes out_strides).
Local Abbreviation sizes_positive := (sizes_positive signal_half_sizes).
Local Abbreviation mirrored_extents_ok := (mirrored_extents_ok is_mirrored_dim signal_half_sizes).
Local Abbreviation advance_index_loop :=
  (advance_index_loop is_mirrored_dim signal_half_sizes in_strides out_strides).
Local Abbreviation advance_index :=
  (advance_index is_mirrored_dim signal_half_sizes in_strides out_strides).
Local Abbreviation seek_loop := (seek_loop is_mirrored_dim signal_half_sizes in_strides out_strides).
Local Abbreviation seek := (seek is_mirrored_dim signal_half_sizes in_strides out_strides).
Local Abbreviation cursor_at :=
  (cursor_at is_mirrored_dim signal_half_sizes in_strides out_strides).

Lemma length_coords n : forall i r, length (coords n i r) = n.
Proof. induction n as [|n IH]; intros i r; simpl; [reflexivity | now rewrite IH]. Qed.

Lemma coords_zero n : forall i, coords n i 0 = replicate n 0.
Proof.
  induction n as [|n IH]; intros i; simpl; [reflexivity |].
  rewrite Zmod_0_l, Zdiv_0_l. now rewrite IH.
Qed.

Lemma in_offset_zero n : forall i, in_offset n i 0 = 0.
Proof.
  induction n as [|n IH]; intros i; simpl; [reflexivity |].
  rewrite Zmod_0_l, Zdiv_0_l, IH. lia.
Qed.

Lemma out_offset_zero n : forall i, out_offset n i 0 = 0.
Proof.
  induction n as [|n IH]; intros i; simpl; [reflexivity |].
  rewrite Zmod_0_l, Zdiv_0_l, IH. unfold reflect.
  rewrite andb_false_r. lia.
Qed.

(** One call of the lambda moves a cursor that stands on row [r] to row
    [r + 1], provided no mirrored dimension it carries through has
    extent 1. *)
Lemma advance_index_loop_spec n : forall i cu r,
  0 <= r ->
  sizes_positive n i = true ->
  mirrored_extents_ok n i = true ->
  length (iter_index cu) = (i + n)%nat ->
  drop i (iter_index cu) = coords n i r ->
  advance_index_loop n i cu =
    Cursor (take i (iter_index cu) ++ coords n i (r + 1))
           (in_ptr cu + (in_offset n i (r + 1) - in_offset n i r))
           (out_ptr cu + (out_offset n i (r + 1) - out_offset n i r)).
Proof.
  induction n as [|n IH]; intros i cu r Hr Hpos Hok Hlen Hdrop.
  - simpl. destruct cu as [idx ip op]; simpl in *.
    rewrite app_nil_r, take_ge by lia. f_equal; lia.
  - simpl in Hpos, Hok, Hdrop.
    apply andb_prop in Hpos as [Hs Hpos]. apply Z.ltb_lt in Hs.
    apply andb_prop in Hok as [Hm Hok].
    pose proof (at_of_drop _ _ _ _ Hdrop) as Hc.
    assert (drop (S i) (iter_index cu)
            = coords n (S i) (r / at_ signal_half_sizes i)) as Hrest.
    { rewrite (drop_at (iter_index cu) i) in Hdrop by lia. congruence. }
    cbn [Fill.advance_index_loop Fill.coords Fill.in_offset Fill.out_offset].
    rewrite Hc.
    destruct (Z.ltb_spec (r mod at_ signal_half_sizes i + 1) (at_ signal_half_sizes i))
      as [Hlt|Hge].
    + destruct (succ_no_carry r _ Hr Hs Hlt) as [Em Ed]. rewrite Em, Ed.
      rewrite insert_at_drop by lia. rewrite Hrest.
      pose proof (Z.mod_pos_bound r _ Hs) as B.
      f_equal; [lia |].
      unfold reflect. destruct (flag is_mirrored_dim i); simpl.
      * destruct (Z.eqb_spec (r mod at_ signal_half_sizes i + 1) 1) as [E1|E1].
        -- assert (r mod at_ signal_half_sizes i = 0) as E0 by lia.
           rewrite E0. simpl. lia.
        -- destruct (Z.gtb_spec (r mod at_ signal_half_sizes i + 1) 0); [| lia].
           destruct (Z.gtb_spec (r mod at_ signal_half_sizes i) 0); [| lia].
           lia.
      * lia.
    + destruct (succ_carry r _ Hr Hs ltac:(lia)) as (Em & Ed & Ec). rewrite Em, Ed.
      rewrite (IH (S i) _ (r / at_ signal_half_sizes i)); simpl.
      * rewrite take_insert_lt by lia.
        rewrite (take_S_r _ _ (r mod at_ signal_half_sizes i)).
        2:{ assert (drop i (iter_index cu) !! 0%nat = Some (r mod at_ signal_half_sizes i))
              as H0 by now rewrite Hdrop.
            now rewrite lookup_drop, Nat.add_0_r in H0. }
        rewrite insert_app_r_alt by (rewrite length_take; lia).
        rewrite length_take, Nat.min_l, Nat.sub_diag by lia. simpl.
        rewrite <- app_assoc. simpl.
        f_equal; [lia |].
        unfold reflect. destruct (flag is_mirrored_dim i); simpl.
        -- simpl in Hm. apply Z.leb_le in Hm.
           destruct (Z.gtb_spec (r mod at_ signal_half_sizes i) 0); lia.
        -- lia.
      * apply Z.div_pos; lia.
      * exact Hpos.
      * exact Hok.
      * rewrite length_insert. lia.
      * rewrite drop_insert_lt by lia. exact Hrest.
Qed.


Lemma take_S_insert (l : list Z) (i : nat) (x : Z) :
  (i < length l)%nat -> take (S i) (<[i := x]> l) = take i l ++ [x].
Proof.
  intros H. rewrite (take_S_r _ _ x) by now apply list_lookup_insert_eq.
  now rewrite take_insert_ge by lia.
Qed.

(** The seek loop puts a fresh cursor on row [linear_idx]. *)
Lemma seek_loop_spec n : forall i linear_idx cu,
  0 <= linear_idx ->
  sizes_positive n i = true ->
  length (iter_index cu) = (i + n)%nat ->
  drop i (iter_index cu) = replicate n 0 ->
  seek_loop n i linear_idx cu =
    Some (Cursor (take i (iter_index cu) ++ coords n i linear_idx)
                 (in_ptr cu + in_offset n i linear_idx)
                 (out_ptr cu + out_offset n i linear_idx)).
Proof.
  induction n as [|n IH]; intros i lin cu Hlin Hpos Hlen Hdrop.
  - simpl. destruct cu as [idx ip op]; simpl in *.
    rewrite app_nil_r, take_ge by lia. do 2 f_equal; lia.
  - cbn [Fill.seek_loop].
    destruct (Z.gtb_spec lin 0) as [Hgt|Hle].
    + simpl in Hpos. apply andb_prop in Hpos as [Hs Hpos]. apply Z.ltb_lt in Hs.
      destruct (Z.eqb_spec (at_ signal_half_sizes i) 0) as [Hz|_]; [lia |].
      rewrite Z.rem_mod_nonneg, Z.quot_div_nonneg by lia.
      pose proof (Z.mod_pos_bound lin _ Hs) as B.
      assert (drop (S i) (iter_index cu) = replicate n 0) as Hrest.
      { rewrite (drop_at (iter_index cu) i) in Hdrop by lia.
        simpl in Hdrop. congruence. }
      set (c := lin mod at_ signal_half_sizes i) in *.
      destruct (Z.gtb_spec c 0) as [Hc|Hc];
        rewrite (IH (S i)); simpl;
        try (apply Z.div_pos; lia); try exact Hpos;
        try (rewrite length_insert; lia);
        try (rewrite drop_insert_lt by lia; exact Hrest).
      * rewrite take_S_insert, <- app_assoc by lia. simpl. fold c.
        do 2 f_equal; [lia |].
        unfold reflect. destruct (flag is_mirrored_dim i); simpl.
        -- destruct (Z.gtb_spec c 0); lia.
        -- lia.
      * rewrite take_S_insert, <- app_assoc by lia. simpl. fold c.
        assert (c = 0) as E by lia.
        do 2 f_equal; [lia |].
        unfold reflect. rewrite E, andb_false_r. lia.
    + assert (lin = 0) as -> by lia.
      rewrite coords_zero, in_offset_zero, out_offset_zero, <- Hdrop, take_drop.
      destruct cu; simpl; do 2 f_equal; lia.
Qed.

Hypothesis Hrows_positive :
  sizes_positive (length signal_half_sizes - 1) 1 = true.

Lemma advance_at in0 out0 r a cu :
  mirrored_extents_ok (length signal_half_sizes - 1) 1 = true ->
  0 <= r ->
  cursor_at in0 out0 r a cu ->
  cursor_at in0 out0 (r + 1) a (advance_index cu).
Proof.
  intros Hok Hr (Hidx & Hin & Hout). unfold Fill.advance_index.
  rewrite Hidx. cbn [length]. rewrite length_coords.
  replace (S (length signal_half_sizes - 1) - 1)%nat
    with (length signal_half_sizes - 1)%nat by lia.
  rewrite (advance_index_loop_spec _ 1%nat cu r); try assumption.
  - rewrite Hidx. unfold cursor_at. simpl. repeat split; lia.
  - rewrite Hidx. simpl. now rewrite length_coords.
  - now rewrite Hidx.
Qed.

Lemma reset_at in0 out0 r a cu :
  cursor_at in0 out0 r a cu -> cursor_at in0 out0 r 0 (reset_column cu).
Proof.
  intros (Hidx & Hin & Hout). unfold cursor_at, reset_column. simpl.
  rewrite Hidx. simpl. auto.
Qed.

Lemma seek_at in0 out0 range :
  (1 <= length signal_half_sizes)%nat ->
  0 < at_ signal_half_sizes 0 ->
  0 <= range_begin range ->
  exists cu,
    seek range (Cursor (replicate (length signal_half_sizes) 0) in0 out0) = Some cu
    /\ cursor_at in0 out0
         (range_begin range / at_ signal_half_sizes 0)
         (range_begin range mod at_ signal_half_sizes 0)
         cu.
Proof.
  intros Hnd Hs Hb. unfold Fill.seek.
  destruct (length signal_half_sizes) as [|n] eqn:En; [lia |].
  replace (S n - 1)%nat with n in * by lia.
  destruct (Z.gtb_spec (range_begin range) 0) as [Hgt|Hle].
  - destruct (Z.eqb_spec (at_ signal_half_sizes 0) 0) as [Hz|_]; [lia |].
    cbn [iter_index in_ptr out_ptr].
    rewrite Z.rem_mod_nonneg, Z.quot_div_nonneg by lia.
    rewrite seek_loop_spec; simpl; try assumption.
    + eexists. split; [reflexivity |].
      unfold cursor_at. rewrite En. replace (S n - 1)%nat with n by lia.
      simpl. auto.
    + apply Z.div_pos; lia.
    + now rewrite length_replicate.
    + reflexivity.
  - eexists. split; [reflexivity |].
    assert (range_begin range = 0) as -> by lia.
    rewrite Zmod_0_l, Zdiv_0_l. unfold cursor_at. rewrite En.
    replace (S n - 1)%nat with n by lia. simpl.
    rewrite coords_zero, in_offset_zero, out_offset_zero. repeat split; lia.
Qed.

End Cursor.

(** ** The assignments made by the loops *)

Lemma partitions_le (chunks : list Range) : forall b e,
  partitions b e chunks -> b <= e.
Proof.
  induction chunks as [|[b' m] chunks IH]; intros b e Hp; simpl in Hp.
  - lia.
  - destruct Hp as (_ & Hm & Hp). apply IH in Hp. lia.
Qed.

Section Trace.

Context {T : Type} (neg : T -> T).

Variable is_mirrored_dim : list bool.
Variable signal_half_sizes : list Z.
Variable in_strides : list Z.
Variable out_strides : list Z.
Variable in_ptr0 out_ptr0 : Z.

Local Abbreviation ndim := (length signal_half_sizes).
Local Abbreviation size0 := (at_ signal_half_sizes 0).
Local Abbreviation in_offset := (in_offset signal_half_sizes in_strides).
Local Abbreviation out_offset := (out_offset is_mirrored_dim signal_half_sizes out_strides).
Local Abbreviation advance_index :=
  (advance_index is_mirrored_dim signal_half_sizes in_strides out_strides).
Local Abbreviation cursor_at :=
  (cursor_at is_mirrored_dim signal_half_sizes in_strides out_strides in_ptr0 out_ptr0).
Local Abbreviation wr :=
  (wr is_mirrored_dim signal_half_sizes in_strides out_strides in_ptr0 out_ptr0).

Lemma exec_app (ws1 ws2 : list (Z * Z)) (h : heap) :
  exec neg (ws1 ++ ws2) h = exec neg ws2 (exec neg ws1 h).
Proof. unfold exec. apply fold_left_app. Qed.

Lemma writes_exec (ws : list (Z * Z)) : forall h : heap (T:=T),
  writes (exec neg ws h) = writes h ++ ws.
Proof.
  induction ws as [|w ws IH]; intros h; simpl.
  - now rewrite app_nil_r.
  - unfold exec in *. simpl. rewrite IH. destruct w. simpl.
    now rewrite <- app_assoc.
Qed.

Lemma for_loop_exec (f g : Z -> Z) (n : nat) : forall a (h : heap),
  for_loop n a (fun i h => write_conj neg (f i) (g i) h) h
  = exec neg (map (fun i => (f i, g i)) (seqZ a (Z.of_nat n))) h.
Proof.
  induction n as [|n IH]; intros a h.
  - reflexivity.
  - rewrite seqZ_cons by lia. cbn [for_loop map].
    rewrite IH. replace (Z.pred (Z.of_nat (S n))) with (Z.of_nat n) by lia.
    reflexivity.
Qed.

Lemma for_lt_exec (f g : Z -> Z) (a e : Z) (h : heap) :
  for_lt a e (fun i h => write_conj neg (f i) (g i) h) h
  = exec neg (map (fun i => (f i, g i)) (seqZ a (e - a))) h.
Proof.
  unfold for_lt. rewrite for_loop_exec.
  destruct (Z.le_gt_cases 0 (e - a)).
  - now rewrite Z2Nat.id.
  - replace (Z.to_nat (e - a)) with 0%nat by lia.
    now rewrite !seqZ_nil by lia.
Qed.

Hypothesis Hndim : (1 <= ndim)%nat.
Hypothesis Hsize0 : 0 < size0.

(** The columns [a .. a+n-1] of row [r], as seen from a cursor on that
    row. *)
Lemma row_writes (r : Z) (c : Z) (cu : cursor) (f g : Z -> Z) (a n : Z) :
  cursor_at r c cu ->
  0 <= a -> a + n <= size0 ->
  (forall j, a <= j < a + n ->
     f j = out_ptr cu + reflect (flag is_mirrored_dim 0) size0 j * at_ out_strides 0) ->
  (forall j, a <= j < a + n -> g j = in_ptr cu + j * at_ in_strides 0) ->
  map (fun j => (f j, g j)) (seqZ a n) = map wr (seqZ (r * size0 + a) n).
Proof.
  intros (_ & Hin & Hout) Ha Hn Hf Hg.
  rewrite <- (fmap_add_seqZ (r * size0) a n).
  change (map wr (Z.add (r * size0) <$> seqZ a n))
    with (map wr (map (Z.add (r * size0)) (seqZ a n))).
  rewrite map_map. apply map_ext_in. intros j Hj.
  apply list_elem_of_In, elem_of_seqZ in Hj.
  unfold wr. destruct ndim as [|n'] eqn:En; [lia |].
  replace (S n' - 1)%nat with n' in * by lia.
  cbn [Fill.in_offset Fill.out_offset].
  destruct (row_column r size0 j Hsize0 ltac:(lia)) as [Em Ed].
  rewrite Em, Ed, Hf, Hg, Hin, Hout by lia.
  f_equal; lia.
Qed.

Hypothesis Hrows_positive :
  sizes_positive signal_half_sizes (ndim - 1) 1 = true.
Hypothesis Hmirrored_ok :
  mirrored_extents_ok is_mirrored_dim signal_half_sizes (ndim - 1) 1 = true.

Lemma mirrored_rows_trace (fuel : nat) : forall numel_remaining r c cu h,
  flag is_mirrored_dim 0 = true ->
  0 <= r -> cursor_at r c cu ->
  (Z.to_nat numel_remaining <= fuel)%nat ->
  mirrored_rows neg is_mirrored_dim signal_half_sizes in_strides out_strides
                fuel numel_remaining cu h
  = Some (exec neg (map wr (seqZ (r * size0) numel_remaining)) h).
Proof.
  induction fuel as [|fuel IH]; intros rem r c cu h Hm Hr Hcu Hfuel;
    cbn [Fill.mirrored_rows]; destruct (Z.gtb_spec rem 0) as [Hgt|Hle];
    try lia; try (now rewrite seqZ_nil by lia).
  set (e := Z.min size0 rem).
  unfold mirrored_columns. rewrite for_lt_exec.
  rewrite (IH (rem - e) (r + 1) c); try assumption; try lia.
  2:{ apply advance_at; assumption. }
  f_equal.
  replace (exec neg _ (write_conj neg (out_ptr cu + 0) (in_ptr cu + 0) h))
    with (exec neg (map wr (seqZ (r * size0 + 0) e)) h).
  - rewrite <- exec_app, <- map_app. do 2 f_equal.
    assert (seqZ (r * size0) rem
            = seqZ (r * size0) e ++ seqZ (r * size0 + e) (rem - e)) as ->.
    { rewrite <- seqZ_app by lia. f_equal. lia. }
    rewrite Z.add_0_r. f_equal.
    destruct (Z.eq_dec e size0) as [E|E].
    + rewrite E. f_equal. lia.
    + replace (rem - e) with 0 by lia. reflexivity.
  - rewrite <- (row_writes r c cu
       (fun j => if j =? 0 then out_ptr cu + 0
                 else out_ptr cu + (size0 - j) * at_ out_strides 0)
       (fun j => in_ptr cu + j * at_ in_strides 0) 0 e Hcu);
      try lia.
    + rewrite (seqZ_cons 0 e) by lia. cbn [map].
      change (exec neg (?w :: ?ws) h) with (exec neg ws (write_conj neg (fst w) (snd w) h)).
      simpl fst. simpl snd. rewrite Z.mul_0_l. f_equal.
      replace (Z.pred e) with (e - 1) by lia. change (Z.succ 0) with 1.
      apply map_ext_in. intros j Hj.
      apply list_elem_of_In, elem_of_seqZ in Hj.
      destruct (Z.eqb_spec j 0); [lia | reflexivity].
    + intros j Hj. rewrite Hm. unfold reflect. simpl.
      destruct (Z.eqb_spec j 0) as [->|Hj0]; simpl; [lia |].
      destruct (Z.gtb_spec j 0); [reflexivity | lia].
Qed.


Lemma plain_rows_trace (fuel : nat) : forall numel_remaining r a cu h,
  flag is_mirrored_dim 0 = false ->
  0 <= r -> 0 <= a < size0 -> cursor_at r a cu ->
  (Z.to_nat numel_remaining <= fuel)%nat ->
  plain_rows neg is_mirrored_dim signal_half_sizes in_strides out_strides
             fuel numel_remaining cu h
  = Some (exec neg (map wr (seqZ (r * size0 + a) numel_remaining)) h).
Proof.
  induction fuel as [|fuel IH]; intros rem r a cu h Hm Hr Ha Hcu Hfuel;
    cbn [Fill.plain_rows]; destruct (Z.gtb_spec rem 0) as [Hgt|Hle];
    try lia; try (now rewrite seqZ_nil by lia).
  assert (at_ (iter_index cu) 0 = a) as Ea.
  { destruct Hcu as (Hidx & _). now rewrite Hidx. }
  rewrite Ea. set (e := Z.min size0 (a + rem)).
  unfold plain_columns, for_ne. destruct (Z.ltb_spec e a) as [Hlt|_]; [lia |].
  fold (for_lt a e (fun i h0 => write_conj neg (out_ptr cu + i * at_ out_strides 0)
                                 (in_ptr cu + i * at_ in_strides 0) h0) h).
  rewrite for_lt_exec.
  rewrite (IH (rem - (e - a)) (r + 1) 0); try assumption; try lia.
  2:{ apply advance_at; try assumption. eapply reset_at. exact Hcu. }
  f_equal. rewrite (row_writes r a cu _ _ a (e - a) Hcu); try lia.
  - rewrite <- exec_app, <- map_app. do 2 f_equal.
    assert (seqZ (r * size0 + a) rem
            = seqZ (r * size0 + a) (e - a)
              ++ seqZ (r * size0 + a + (e - a)) (rem - (e - a))) as ->.
    { rewrite <- seqZ_app by lia. f_equal. lia. }
    f_equal. destruct (Z.eq_dec e size0) as [E|E].
    + rewrite E. f_equal. lia.
    + replace (rem - (e - a)) with 0 by lia. reflexivity.
  - intros j Hj. rewrite Hm. reflexivity.
Qed.

(** The kernel makes the assignments of the linear indices of its range,
    in increasing order. *)
Lemma slice_trace (range : Range) (h : heap) :
  0 <= range_begin range <= range_end range ->
  _fft_fill_with_conjugate_symmetry_slice neg is_mirrored_dim signal_half_sizes
     in_strides out_strides range in_ptr0 out_ptr0 h
  = Some (exec neg (map wr (seqZ (range_begin range)
                                 (range_end range - range_begin range))) h).
Proof.
  intros Hrange. unfold _fft_fill_with_conjugate_symmetry_slice.
  destruct (seek_at is_mirrored_dim signal_half_sizes in_strides out_strides
              Hrows_positive in_ptr0 out_ptr0 range Hndim Hsize0 ltac:(lia))
    as (cu & -> & Hcu).
  unfold fill_rows.
  set (b := range_begin range) in *. set (rem := range_end range - b).
  pose proof (Z.mod_pos_bound b size0 Hsize0) as Ba.
  pose proof (Z.div_mod b size0 ltac:(lia)) as Eb.
  assert (0 <= b / size0) as Hr by (apply Z.div_pos; lia).
  assert (at_ (iter_index cu) 0 = b mod size0) as Ea.
  { destruct Hcu as (Hidx & _). now rewrite Hidx. }
  assert (b = b / size0 * size0 + b mod size0) as Eb' by lia.
  destruct (flag is_mirrored_dim 0) eqn:Hm.
  - rewrite Ea. destruct (Z.gtb_spec (b mod size0) 0) as [Hgt|Hle].
    + set (a := b mod size0) in *. set (e := Z.min size0 (a + rem)).
      unfold mirrored_columns. rewrite for_lt_exec.
      rewrite (mirrored_rows_trace _ _ (b / size0 + 1) 0); try assumption; try lia.
      2:{ apply advance_at; try assumption. eapply reset_at. exact Hcu. }
      f_equal. rewrite (row_writes (b / size0) a cu _ _ a (e - a) Hcu); try lia.
      * rewrite <- exec_app, <- map_app. do 2 f_equal.
        rewrite Eb' at 3.
        assert (seqZ (b / size0 * size0 + a) rem
                = seqZ (b / size0 * size0 + a) (e - a)
                  ++ seqZ (b / size0 * size0 + a + (e - a)) (rem - (e - a))) as ->.
        { rewrite <- seqZ_app by lia. f_equal. lia. }
        f_equal. destruct (Z.eq_dec e size0) as [E|E].
        -- rewrite E. f_equal. lia.
        -- replace (rem - (e - a)) with 0 by lia. reflexivity.
      * intros j Hj. rewrite Hm. unfold reflect. simpl.
        destruct (Z.gtb_spec j 0); [reflexivity | lia].
    + rewrite (mirrored_rows_trace _ _ (b / size0) (b mod size0)); try assumption; try lia.
      replace (b / size0 * size0) with b by lia. reflexivity.
  - rewrite (plain_rows_trace _ _ (b / size0) (b mod size0)); try assumption; try lia.
    rewrite <- Eb'. reflexivity.
Qed.


(** A run over an exact partition makes the assignments of the whole range. *)
Lemma run_chunks_trace (chunks : list Range) : forall b e h,
  0 <= b -> partitions b e chunks ->
  run_chunks neg is_mirrored_dim signal_half_sizes in_strides out_strides
             chunks in_ptr0 out_ptr0 h
  = Some (exec neg (map wr (seqZ b (e - b))) h).
Proof.
  induction chunks as [|[b' m] chunks IH]; intros b e h Hb Hp; simpl in *.
  - subst. now rewrite Z.sub_diag.
  - destruct Hp as (-> & Hm & Hp). rewrite slice_trace by (simpl; lia). simpl.
    rewrite (IH m e) by (assumption || lia).
    pose proof (partitions_le _ _ _ Hp) as Hme.
    assert (seqZ b (e - b) = seqZ b (m - b) ++ seqZ m (e - m)) as ->.
    { replace (e - b) with ((m - b) + (e - m)) by lia.
      rewrite seqZ_app by lia. do 2 f_equal. lia. }
    now rewrite map_app, exec_app.
Qed.

End Trace.

(** ** The offsets as dot products of coordinates and strides *)

Section Offsets.

Variable is_mirrored_dim : list bool.
Variable signal_half_sizes : list Z.
Variable in_strides : list Z.
Variable out_strides : list Z.

Hypothesis Hlen_in : length in_strides = length signal_half_sizes.
Hypothesis Hlen_out : length out_strides = length signal_half_sizes.
Hypothesis Hlen_mirrored : length is_mirrored_dim = length signal_half_sizes.

Lemma in_offset_dot (n : nat) : forall i k,
  n = (length signal_half_sizes - i)%nat ->
  in_offset signal_half_sizes in_strides n i k
  = dot (unravel (drop i signal_half_sizes) k) (drop i in_strides).
Proof.
  induction n as [|n IH]; intros i k Hn.
  - rewrite (drop_ge signal_half_sizes) by lia. reflexivity.
  - rewrite (drop_at signal_half_sizes i), (drop_at in_strides i) by lia.
    simpl. rewrite IH by lia. reflexivity.
Qed.

Lemma out_offset_dot (n : nat) : forall i k,
  n = (length signal_half_sizes - i)%nat ->
  out_offset is_mirrored_dim signal_half_sizes out_strides n i k
  = dot (mirror (drop i is_mirrored_dim) (drop i signal_half_sizes)
                (unravel (drop i signal_half_sizes) k))
        (drop i out_strides).
Proof.
  induction n as [|n IH]; intros i k Hn.
  - rewrite (drop_ge signal_half_sizes) by lia. simpl.
    destruct (drop i is_mirrored_dim); reflexivity.
  - rewrite (drop_at signal_half_sizes i), (drop_at out_strides i),
      (drop_flag is_mirrored_dim i) by lia.
    simpl. rewrite IH by lia. reflexivity.
Qed.

Lemma wr_write_of (in_ptr0 out_ptr0 k : Z) :
  wr is_mirrored_dim signal_half_sizes in_strides out_strides in_ptr0 out_ptr0 k
  = write_of is_mirrored_dim signal_half_sizes in_strides out_strides in_ptr0 out_ptr0 k.
Proof.
  unfold wr, write_of.
  rewrite in_offset_dot, out_offset_dot by lia. now rewrite !drop_0.
Qed.

(** The destination coordinate, dimension by dimension. *)
Lemma mirror_lookup (c : list Z) (d : nat) :
  length c = length signal_half_sizes ->
  mirror is_mirrored_dim signal_half_sizes c !! d
  = reflect (flag is_mirrored_dim d) (at_ signal_half_sizes d) <$> c !! d.
Proof.
  clear Hlen_in Hlen_out. revert Hlen_mirrored.
  generalize is_mirrored_dim as ms. generalize signal_half_sizes as ss.
  revert d. induction c as [|ci c IH]; intros d ss ms Hms Hc.
  - destruct ms, ss; reflexivity.
  - destruct ss as [|s ss]; [discriminate |]. destruct ms as [|m ms]; [discriminate |].
    destruct d as [|d]; simpl; [reflexivity |].
    exact (IH d ss ms ltac:(simpl in *; lia) ltac:(simpl in *; lia)).
Qed.

Lemma length_unravel (sizes : list Z) : forall k, length (unravel sizes k) = length sizes.
Proof. induction sizes as [|s sizes IH]; intros k; simpl; [reflexivity | now rewrite IH]. Qed.

End Offsets.

(** ** The memory after a run *)

Section Memory.

Context {T : Type} (neg : T -> T).

Lemma exec_mem_other (ws : list (Z * Z)) : forall (h : heap (T:=T)) a,
  a ∉ map fst ws -> mem (exec neg ws h) a = mem h a.
Proof.
  induction ws as [|[d s] ws IH]; intros h a Ha; [reflexivity |].
  simpl in Ha. apply not_elem_of_cons in Ha as [Hne Ha].
  change (exec neg ((d, s) :: ws) h) with (exec neg ws (write_conj neg d s h)).
  rewrite IH by assumption. simpl. unfold store.
  destruct (Z.eqb_spec a d); [contradiction | reflexivity].
Qed.

Lemma exec_mem_written (ws : list (Z * Z)) : forall (h : heap (T:=T)) w,
  NoDup (map fst ws) ->
  Forall (fun w => snd w ∉ map fst ws) ws ->
  w ∈ ws ->
  mem (exec neg ws h) (fst w) = conj neg (mem h (snd w)).
Proof.
  induction ws as [|[d s] ws IH]; intros h w Hnd Hdis Hw.
  - inversion Hw.
  - change (exec neg ((d, s) :: ws) h) with (exec neg ws (write_conj neg d s h)).
    simpl in Hnd. apply NoDup_cons in Hnd as [Hd Hnd].
    apply Forall_cons in Hdis as [Hs Hdis]. simpl in Hs.
    apply elem_of_cons in Hw as [->|Hw].
    + rewrite exec_mem_other by assumption. simpl. unfold store.
      now rewrite Z.eqb_refl.
    + rewrite IH; try assumption.
      * simpl. unfold store.
        destruct (Z.eqb_spec (snd w) d) as [E|E]; [| reflexivity].
        exfalso. rewrite Forall_forall in Hdis. apply (Hdis w Hw).
        simpl. rewrite E. left.
      * eapply Forall_impl; [exact Hdis |]. intros x Hx. simpl in Hx.
        intros Hin. apply Hx. now right.
Qed.

End Memory.

End FillFacts.

(** * The conjugate-symmetry fill: properties *)

Module FillProperties.
Import Fill FillFacts Examples.

Local Abbreviation slice := _fft_fill_with_conjugate_symmetry_slice.

Lemma length_mirror (ms : list bool) (ss : list Z) : forall c,
  length ms = length ss -> length c = length ss ->
  length (mirror ms ss c) = length ss.
Proof.
  revert ms. induction ss as [|s ss IH]; intros [|m ms] [|ci c] Hm Hc;
    simpl in *; try reflexivity; try lia.
  rewrite IH by lia. reflexivity.
Qed.

(** The assignments of a run over [range], for dimensions on which the
    loops agree with the start-of-slice code (no mirrored dimension of
    extent 1 above dimension 0). *)
Lemma slice_run {T : Type} (neg : T -> T)
    (ms : list bool) (ss is_ os : list Z) (in0 out0 : Z) (range : Range) (h : heap) :
  length is_ = length ss -> length os = length ss -> length ms = length ss ->
  (1 <= length ss)%nat ->
  sizes_positive ss (length ss) 0 = true ->
  mirrored_extents_ok ms ss (length ss - 1) 1 = true ->
  0 <= range_begin range <= range_end range ->
  slice neg ms ss is_ os range in0 out0 h
  = Some (exec neg (map (write_of ms ss is_ os in0 out0)
                        (seqZ (range_begin range) (range_end range - range_begin range)))
               h).
Proof.
  intros Hi Ho Hm Hnd Hpos Hok Hrange.
  destruct (length ss) as [|n] eqn:En; [lia |].
  simpl in Hpos. apply andb_prop in Hpos as [Hs0 Hpos]. apply Z.ltb_lt in Hs0.
  replace (S n - 1)%nat with n in Hok by lia.
  rewrite slice_trace; try assumption; try (rewrite En; simpl; try lia).
  - do 2 f_equal. apply map_ext. intros k. apply wr_write_of; congruence.
  - now replace (n - 0)%nat with n by lia.
  - now replace (n - 0)%nat with n by lia.
Qed.

(** What the run leaves in memory when, besides, the destinations are
    pairwise distinct and no source is overwritten. *)
Lemma slice_memory {T : Type} (neg : T -> T)
    (ms : list bool) (ss is_ os : list Z) (in0 out0 : Z) (range : Range) (h : heap) :
  length is_ = length ss -> length os = length ss -> length ms = length ss ->
  (1 <= length ss)%nat ->
  sizes_positive ss (length ss) 0 = true ->
  mirrored_extents_ok ms ss (length ss - 1) 1 = true ->
  0 <= range_begin range <= range_end range ->
  let ws := map (write_of ms ss is_ os in0 out0)
                (seqZ (range_begin range) (range_end range - range_begin range)) in
  NoDup (map fst ws) ->
  Forall (fun w => snd w ∉ map fst ws) ws ->
  exists h',
    slice neg ms ss is_ os range in0 out0 h = Some h' /\
    writes h' = writes h ++ ws /\
    (forall k, range_begin range <= k < range_end range ->
       mem h' (out0 + dot (mirror ms ss (unravel ss k)) os)
       = conj neg (mem h (in0 + dot (unravel ss k) is_))) /\
    (forall a, a ∉ map fst ws -> mem h' a = mem h a).
Proof.
  intros Hi Ho Hm Hnd Hpos Hok Hrange ws Hdup Hdis.
  exists (exec neg ws h). repeat split.
  - now apply slice_run.
  - apply writes_exec.
  - intros k Hk.
    assert (write_of ms ss is_ os in0 out0 k ∈ ws) as Hin.
    { apply list_elem_of_fmap. exists k. split; [reflexivity |].
      apply elem_of_seqZ. lia. }
    apply (exec_mem_written neg ws h _ Hdup Hdis Hin).
  - intros a Ha. now apply exec_mem_other.
Qed.


Lemma mem_exec {T : Type} (neg : T -> T) (ws : list (Z * Z)) : forall h : heap (T:=T),
  mem (exec neg ws h)
  = fold_left (fun m w => store m (fst w) (conj neg (m (snd w)))) ws (mem h).
Proof.
  induction ws as [|w ws IH]; intros h; [reflexivity |].
  change (exec neg (w :: ws) h) with (exec neg ws (write_conj neg (fst w) (snd w) h)).
  now rewrite IH.
Qed.

(** C1, as amended. Take an input with positive extents and no mirrored
    dimension of extent 1 above dimension 0, and a range whose destination
    offsets are pairwise distinct and none of whose sources is a
    destination. For every linear index [k] of the range, with source
    coordinate [c = unravel sizes k], the fill writes the conjugate of the
    input at [c] to the output at the coordinate [c'] that has, in every
    dimension [d], [c'_d = sizes_d - c_d] when [d] is mirrored and
    [c_d > 0], and [c'_d = c_d] otherwise (index 0 maps to itself; every
    mirrored dimension is reflected at once, within the extent
    [signal_half_sizes_d], for all of [1 <= c_d < sizes_d]). These are the
    only assignments made, one per index and in the order of the indices,
    and no other element changes. *)
Theorem fill_reflects_and_conjugates {T : Type} (neg : T -> T)
    (ms : list bool) (ss is_ os : list Z) (in0 out0 : Z) (range : Range) (h : heap) :
  length is_ = length ss -> length os = length ss -> length ms = length ss ->
  (1 <= length ss)%nat ->
  sizes_positive ss (length ss) 0 = true ->
  mirrored_extents_ok ms ss (length ss - 1) 1 = true ->
  0 <= range_begin range <= range_end range ->
  let ws := map (write_of ms ss is_ os in0 out0)
                (seqZ (range_begin range) (range_end range - range_begin range)) in
  NoDup (map fst ws) ->
  Forall (fun w => snd w ∉ map fst ws) ws ->
  exists h',
    slice neg ms ss is_ os range in0 out0 h = Some h' /\
    writes h' = writes h ++ ws /\
    (forall k, range_begin range <= k < range_end range ->
       let c := unravel ss k in
       let c' := mirror ms ss c in
       (forall d, c' !! d
                  = (fun c_d => if flag ms d && (c_d >? 0) then at_ ss d - c_d else c_d)
                      <$> c !! d) /\
       mem h' (out0 + dot c' os) = conj neg (mem h (in0 + dot c is_))) /\
    (forall a, a ∉ map fst ws -> mem h' a = mem h a).
Proof.
  intros Hi Ho Hm Hnd Hpos Hok Hrange ws Hdup Hdis.
  destruct (slice_memory neg ms ss is_ os in0 out0 range h
              Hi Ho Hm Hnd Hpos Hok Hrange Hdup Hdis) as (h' & E & W & Hw & Hother).
  exists h'. split; [exact E |]. split; [exact W |]. split; [| exact Hother].
  intros k Hk c c'. split; [| now apply Hw].
  intros d. unfold c'. rewrite mirror_lookup by (assumption || apply length_unravel).
  reflexivity.
Qed.

(** The input of the spec's scenario: extents (3,), dimension 0 mirrored,
    unit strides. The fill makes three assignments and leaves
    [conj(in[0]), conj(in[2]), conj(in[1])] at the output indices 0, 1, 2;
    it does not write index 3. *)
Lemma fill_reflects_and_conjugates_witness :
  exists h',
    slice Z.opp [true] [3] [1] [1] (mkRange 0 3) 0 10 (fresh half_spectrum) = Some h' /\
    writes h' = [(10, 0); (12, 1); (11, 2)] /\
    map (mem h') [10; 11; 12; 13]
    = [Complex 2 0; Complex 0 (-1); Complex 1 (-1); Complex 0 0].
Proof.
  destruct (fill_reflects_and_conjugates Z.opp [true] [3] [1] [1] 0 10 (mkRange 0 3)
              (fresh half_spectrum))
    as (h' & E & W & Hw & Hother); try reflexivity; try (simpl; lia).
  - apply (bool_decide_unpack _). vm_compute. exact I.
  - apply (bool_decide_unpack _). vm_compute. exact I.
  - exists h'. split; [exact E |]. split; [exact W |].
    assert (mem h' 10 = Complex 2 0) as H0
      by exact (proj2 (Hw 0 ltac:(simpl; lia))).
    assert (mem h' 12 = Complex 1 (-1)) as H1
      by exact (proj2 (Hw 1 ltac:(simpl; lia))).
    assert (mem h' 11 = Complex 0 (-1)) as H2
      by exact (proj2 (Hw 2 ltac:(simpl; lia))).
    pose proof (Hother 13) as H3. simpl.
    rewrite H0, H1, H2, H3; [reflexivity |].
    apply (bool_decide_unpack _). vm_compute. exact I.
Defined.

(** C1, the scenario as the spec states it: the result is not
    [2+0i, 1+1i, 0+1i, 1-1i], and index 3 is not the conjugate of index 1. *)
Lemma fill_scenario_refuted :
  read [10; 11; 12; 13]
       (slice Z.opp [true] [3] [1] [1] (mkRange 0 3) 0 10 (fresh half_spectrum))
  = Some [Complex 2 0; Complex 0 (-1); Complex 1 (-1); Complex 0 0]
  /\ read [10; 11; 12; 13]
          (slice Z.opp [true] [3] [1] [1] (mkRange 0 3) 0 10 (fresh half_spectrum))
     <> Some [Complex 2 0; Complex 1 1; Complex 0 1; Complex 1 (-1)].
Proof. split; [reflexivity | discriminate]. Qed.


(** C4, as amended. Take an input with positive extents and no mirrored
    dimension of extent 1 above dimension 0. The run makes one assignment
    per linear index [k] of its range, in order: it reads the input at the
    coordinate [c = unravel sizes k] and writes the output at a coordinate
    [c'] that equals [c] in every dimension that is not in [mirror_dims]:
    such a dimension is not reflected. The value is not copied unchanged:
    every assignment stores the conjugate of the value it reads. *)
Theorem unmirrored_dims_keep_coordinate {T : Type} (neg : T -> T)
    (ms : list bool) (ss is_ os : list Z) (in0 out0 : Z) (range : Range) (h : heap) :
  length is_ = length ss -> length os = length ss -> length ms = length ss ->
  (1 <= length ss)%nat ->
  sizes_positive ss (length ss) 0 = true ->
  mirrored_extents_ok ms ss (length ss - 1) 1 = true ->
  0 <= range_begin range <= range_end range ->
  exists h' ws,
    slice neg ms ss is_ os range in0 out0 h = Some h' /\
    writes h' = writes h ++ ws /\
    length ws = Z.to_nat (range_end range - range_begin range) /\
    (forall k, range_begin range <= k < range_end range ->
       let c := unravel ss k in
       let c' := mirror ms ss c in
       ws !! Z.to_nat (k - range_begin range)
       = Some (out0 + dot c' os, in0 + dot c is_) /\
       length c' = length c /\
       (forall d, flag ms d = false -> c' !! d = c !! d)) /\
    mem h' = fold_left (fun m w => store m (fst w) (conj neg (m (snd w)))) ws (mem h).
Proof.
  intros Hi Ho Hm Hnd Hpos Hok Hrange.
  set (ws := map (write_of ms ss is_ os in0 out0)
                 (seqZ (range_begin range) (range_end range - range_begin range))).
  exists (exec neg ws h), ws.
  split; [now apply slice_run |].
  split; [apply writes_exec |].
  split; [unfold ws; now rewrite length_map, length_seqZ |].
  split; [| apply mem_exec].
  intros k Hk c c'. split; [| split].
  - unfold ws. rewrite list_lookup_fmap, lookup_seqZ_lt by lia. simpl.
    rewrite Z2Nat.id by lia.
    replace (range_begin range + (k - range_begin range)) with k by lia.
    reflexivity.
  - unfold c', c. rewrite length_unravel. apply length_mirror; [exact Hm |].
    apply length_unravel.
  - intros d Hd. unfold c'.
    rewrite mirror_lookup by (assumption || apply length_unravel).
    rewrite Hd. unfold reflect. simpl. now destruct (c !! d).
Qed.

(** Extents (3, 2), dimension 0 mirrored and dimension 1 not, a range that
    starts inside the first row. *)
Lemma unmirrored_dims_keep_coordinate_witness :
  exists h' ws,
    slice Z.opp [true; false] [3; 2] [1; 3] [1; 3] (mkRange 1 6) 0 10 (fresh four_values)
    = Some h' /\
    writes h' = writes (fresh four_values) ++ ws /\
    length ws = 5%nat /\
    (forall k, 1 <= k < 6 ->
       let c := unravel [3; 2] k in
       let c' := mirror [true; false] [3; 2] c in
       ws !! Z.to_nat (k - 1) = Some (10 + dot c' [1; 3], 0 + dot c [1; 3]) /\
       length c' = length c /\
       (forall d, flag [true; false] d = false -> c' !! d = c !! d)) /\
    mem h' = fold_left (fun m w => store m (fst w) (conj Z.opp (m (snd w)))) ws
                       (mem (fresh four_values)).
Proof.
  apply (unmirrored_dims_keep_coordinate Z.opp [true; false] [3; 2] [1; 3] [1; 3] 0 10
           (mkRange 1 6) (fresh four_values)); reflexivity || (simpl; lia).
Defined.

(** C4 as the spec states it: with no mirrored dimension the output is not
    the unchanged input [1+1i, 2+3i]. *)
Lemma unmirrored_copy_refuted :
  read [10; 11]
       (slice Z.opp [false] [2] [1] [1] (mkRange 0 2) 0 10 (fresh two_values))
  = Some [Complex 1 (-1); Complex 2 (-3)]
  /\ read [10; 11]
          (slice Z.opp [false] [2] [1] [1] (mkRange 0 2) 0 10 (fresh two_values))
     <> Some (map two_values [0; 1]).
Proof. split; [reflexivity | discriminate]. Qed.

(** C10 at a failing input: extents (2, 1, 2), the dimension of extent 1
    flagged as mirrored, the range [0, 4). The kernel makes the four
    assignments of the range, each the conjugate of the value read, but
    they reach two output elements only: the elements 10 and 11 are written
    twice, with the conjugates of two input elements each, and the elements
    12 and 13 are not written. *)
Theorem flagged_extent_one_overwrites_outputs :
  exists h',
    slice Z.opp [false; true; false] [2; 1; 2] [1; 2; 2] [1; 2; 2] (mkRange 0 4) 0 10
          (fresh four_values) = Some h' /\
    writes h' = [(10, 0); (11, 1); (10, 2); (11, 3)] /\
    length (writes h') = Z.to_nat (4 - 0) /\
    remove_dups (map fst (writes h')) = [10; 11] /\
    map (mem h') [10; 11; 12; 13]
    = [conj Z.opp (four_values 2); conj Z.opp (four_values 3);
       Complex 0 0; Complex 0 0].
Proof.
  eexists. split; [reflexivity |]. repeat split.
Qed.

(** ** Extent-1 mirrored dimensions *)

(** C2 at a failing input. With the middle dimension of extent 1 flagged as
    mirrored, one call over [0, 4) leaves the second row on top of the
    first, while the calls over [0, 2) and [2, 4) fill all four elements. *)
Theorem partition_changes_result :
  read [10; 11; 12; 13] (run_flagged [mkRange 0 4])
  = Some [Complex 3 (-3); Complex 4 (-4); Complex 0 0; Complex 0 0]
  /\ read [10; 11; 12; 13] (run_flagged [mkRange 0 2; mkRange 2 4])
     = Some [Complex 1 (-1); Complex 2 (-2); Complex 3 (-3); Complex 4 (-4)]
  /\ partitions 0 4 [mkRange 0 2; mkRange 2 4]
  /\ read [10; 11; 12; 13] (run_flagged [mkRange 0 4])
     <> read [10; 11; 12; 13] (run_flagged [mkRange 0 2; mkRange 2 4]).
Proof.
  split; [reflexivity |]. split; [reflexivity |].
  split; [simpl; lia | discriminate].
Qed.

(** C9 at a failing input. Flagging the dimension of extent 1 changes the
    assignments of a single traversal: the elements 10 and 11 are written
    twice and the elements 12 and 13 never, where the unflagged run writes
    each of the four once. *)
Theorem extent_one_mirror_is_not_a_noop :
  option_map writes (run_flagged [mkRange 0 4])
  = Some [(10, 0); (11, 1); (10, 2); (11, 3)]
  /\ option_map writes (run_unflagged [mkRange 0 4])
     = Some [(10, 0); (11, 1); (12, 2); (13, 3)]
  /\ read [10; 11; 12; 13] (run_flagged [mkRange 0 4])
     <> read [10; 11; 12; 13] (run_unflagged [mkRange 0 4]).
Proof. split; [reflexivity |]. split; [reflexivity | discriminate]. Qed.

(** X1. For comparison: without a mirrored dimension of extent 1 above
    dimension 0, running the chunks of any exact partition of [0, numel)
    one after the other gives the heap of the single call. *)
Lemma partition_independent {T : Type} (neg : T -> T)
    (ms : list bool) (ss is_ os : list Z) (in0 out0 : Z)
    (chunks : list Range) (h : heap) :
  (1 <= length ss)%nat ->
  sizes_positive ss (length ss) 0 = true ->
  mirrored_extents_ok ms ss (length ss - 1) 1 = true ->
  partitions 0 (prod_intlist ss) chunks ->
  run_chunks neg ms ss is_ os chunks in0 out0 h
  = slice neg ms ss is_ os (mkRange 0 (prod_intlist ss)) in0 out0 h.
Proof.
  intros Hnd Hpos Hok Hp.
  destruct (length ss) as [|n] eqn:En; [lia |].
  simpl in Hpos. apply andb_prop in Hpos as [Hs0 Hpos]. apply Z.ltb_lt in Hs0.
  replace (S n - 1)%nat with n in Hok by lia.
  pose proof (partitions_le _ _ _ Hp) as Hle.
  assert (1 <= length ss)%nat as Hnd' by lia.
  assert (sizes_positive ss (length ss - 1) 1 = true) as Hpos'
    by (rewrite En; now replace (S n - 1)%nat with n by lia).
  assert (mirrored_extents_ok ms ss (length ss - 1) 1 = true) as Hok'
    by (rewrite En; now replace (S n - 1)%nat with n by lia).
  rewrite (run_chunks_trace neg ms ss is_ os in0 out0 Hnd' Hs0 Hpos' Hok'
             chunks 0 (prod_intlist ss) h ltac:(lia) Hp).
  rewrite (slice_trace neg ms ss is_ os in0 out0 Hnd' Hs0 Hpos' Hok'
             (mkRange 0 (prod_intlist ss)) h ltac:(simpl; lia)).
  reflexivity.
Qed.

End FillProperties.

(** * The transform configurator: facts *)

Module MklFacts.
Import Mkl.

(** ** Reasoning about logged computations *)

Lemma emits_ret {A : Type} (P : event -> Prop) (a : A) : emits P (ret a).
Proof. intros log. exists []. simpl. now rewrite app_nil_r. Qed.

Lemma emits_throw {A : Type} (P : event -> Prop) (e : error) : emits P (throw (A:=A) e).
Proof. intros log. exists []. simpl. now rewrite app_nil_r. Qed.

Lemma emits_emit (P : event -> Prop) (ev : event) : P ev -> emits P (emit ev).
Proof. intros H log. exists [ev]. simpl. auto. Qed.

Lemma emits_bind {A B : Type} (P : event -> Prop) (m : M A) (k : A -> M B) :
  emits P m -> (forall a, emits P (k a)) -> emits P (bind m k).
Proof.
  intros Hm Hk log. unfold bind.
  destruct (Hm log) as (evs1 & E1 & F1).
  destruct (m log) as [[e|a] log1]; simpl in E1; subst log1.
  - exists evs1. auto.
  - destruct (Hk a (log ++ evs1)) as (evs2 & E2 & F2).
    exists (evs1 ++ evs2). rewrite E2, app_assoc. split; [reflexivity |].
    apply Forall_app; auto.
Qed.

Lemma emits_check (P : event -> Prop) (cond : bool) : emits P (TORCH_CHECK cond).
Proof. destruct cond; [apply emits_ret | apply emits_throw]. Qed.

Lemma emits_when (P : event -> Prop) (cond : bool) (m : M unit) :
  emits P m -> emits P (when cond m).
Proof. intros H. destruct cond; [exact H | apply emits_ret]. Qed.

(** A computation that returns has run both halves of a [bind]. *)
Lemma bind_inr {A B : Type} (m : M A) (k : A -> M B) log b log' :
  bind m k log = (inr b, log') ->
  exists a log1, m log = (inr a, log1) /\ k a log1 = (inr b, log').
Proof.
  unfold bind. destruct (m log) as [[e|a] log1]; [discriminate |].
  intros H. eauto.
Qed.

Lemma ret_inr {A : Type} (a b : A) log log' :
  ret a log = (inr b, log') -> b = a /\ log' = log.
Proof. unfold ret. intros H. inversion H. auto. Qed.

Lemma emit_inr (ev : event) log u log' :
  emit ev log = (inr u, log') -> log' = log ++ [ev].
Proof. unfold emit. intros H. now inversion H. Qed.

Section Engine.

Variable MKL_LONG_is_narrow : bool.
Variable MKL_LONG_MAX : Z.
Variable fft_norm_mode_none : Z.
Variable fft_norm_mode_by_root_n : Z.
Variable dfti_status : list event -> dfti_call -> bool.

Local Abbreviation MKL_DFTI_CHECK := (MKL_DFTI_CHECK dfti_status).
Local Abbreviation preflight_loop := (preflight_loop MKL_LONG_MAX).
Local Abbreviation preflight := (preflight MKL_LONG_is_narrow MKL_LONG_MAX).
Local Abbreviation rescale :=
  (rescale fft_norm_mode_none fft_norm_mode_by_root_n dfti_status).
Local Abbreviation _fft_mkl :=
  (_fft_mkl MKL_LONG_is_narrow MKL_LONG_MAX fft_norm_mode_none
            fft_norm_mode_by_root_n dfti_status).
Local Abbreviation completed_events :=
  (completed_events MKL_LONG_is_narrow MKL_LONG_MAX fft_norm_mode_none
                    fft_norm_mode_by_root_n).

Lemma emits_dfti (P : event -> Prop) (c : dfti_call) :
  P (EvDfti c) -> emits P (MKL_DFTI_CHECK c).
Proof.
  intros H log. exists [EvDfti c]. unfold Mkl.MKL_DFTI_CHECK.
  destruct (dfti_status log c); simpl; auto.
Qed.

Lemma dfti_inr (c : dfti_call) log u log' :
  MKL_DFTI_CHECK c log = (inr u, log') -> log' = log ++ [EvDfti c].
Proof.
  unfold Mkl.MKL_DFTI_CHECK. destruct (dfti_status log c); intros H; now inversion H.
Qed.

(** ** Layout normalisation of a complex input *)

Lemma odd_stride_loop_spec (t : Tensor) (n : nat) : forall i b,
  odd_stride_loop t n i b = b || some_odd_stride t i n.
Proof.
  induction n as [|n IH]; intros i b; simpl.
  - now rewrite orb_false_r.
  - destruct b; simpl; [reflexivity |]. rewrite IH. reflexivity.
Qed.

Lemma align_complex_input_spec (self : Tensor) (signal_ndim : Z) (complex_input : bool) log :
  align_complex_input self signal_ndim complex_input log
  = if complex_input && needs_alignment self signal_ndim
    then (inr (contiguous_layout self), log ++ [EvContiguous self])
    else (inr self, log).
Proof.
  unfold align_complex_input, needs_alignment.
  destruct complex_input; [| reflexivity]. simpl.
  rewrite odd_stride_loop_spec.
  destruct (_ || _); reflexivity.
Qed.

(** ** The overflow preflight *)

Lemma preflight_loop_outcome (input : Tensor) (ci : bool) (output_sizes : list Z)
    (k : nat) : forall need inumel onumel log,
  preflight_loop input ci output_sizes k need inumel onumel log = (inl SizeExceeded, log)
  \/ exists b, preflight_loop input ci output_sizes k need inumel onumel log = (inr b, log).
Proof.
  induction k as [|k IH]; intros need inumel onumel log.
  - right. exists need. reflexivity.
  - cbn [Mkl.preflight_loop]. unfold bind.
    destruct ((_ <=? _) && (_ <=? _) && (_ <=? _)); simpl; [| now left].
    destruct (negb _ || (_ <=? _)); simpl; [| now left].
    apply IH.
Qed.

Lemma preflight_outcome (input : Tensor) (signal_ndim : Z) (ci : bool)
    (output_sizes : list Z) log :
  preflight input signal_ndim ci output_sizes log = (inl SizeExceeded, log)
  \/ preflight input signal_ndim ci output_sizes log = (inr tt, log).
Proof.
  unfold Mkl.preflight, when. destruct MKL_LONG_is_narrow; [| now right].
  unfold bind.
  destruct (preflight_loop_outcome input ci output_sizes (Z.to_nat (signal_ndim + 1))
              false 1 1 log) as [E|[b E]]; rewrite E; auto.
Qed.

Lemma emits_preflight (P : event -> Prop) input signal_ndim ci output_sizes :
  emits P (preflight input signal_ndim ci output_sizes).
Proof.
  intros log. exists []. rewrite app_nil_r.
  destruct (preflight_outcome input signal_ndim ci output_sizes log) as [E|E];
    rewrite E; auto.
Qed.

Lemma preflight_inr input signal_ndim ci output_sizes log u log' :
  preflight input signal_ndim ci output_sizes log = (inr u, log') -> log' = log.
Proof.
  destruct (preflight_outcome input signal_ndim ci output_sizes log) as [E|E];
    rewrite E; intros H; now inversion H.
Qed.

Lemma emits_select_precision (P : event -> Prop) input :
  emits P (select_precision input).
Proof.
  unfold select_precision.
  destruct (scalar_type input); (apply emits_ret || apply emits_throw).
Qed.


Lemma select_precision_inr input log prec log' :
  select_precision input log = (inr prec, log') ->
  log' = log /\
  ((scalar_type input = Float /\ prec = DFTI_SINGLE)
   \/ (scalar_type input = Double /\ prec = DFTI_DOUBLE)).
Proof.
  unfold select_precision.
  destruct (scalar_type input); intros H; inversion H; auto.
Qed.

(** An extent beyond [MKL_LONG_MAX] among the dimensions the loop visits
    makes it raise. *)
Lemma preflight_loop_rejects_extent (input : Tensor) (ci : bool) (output_sizes : list Z)
    (i : nat) (k : nat) : forall need inumel onumel log,
  (i < k)%nat ->
  MKL_LONG_MAX < size input i \/ MKL_LONG_MAX < at_ output_sizes i ->
  preflight_loop input ci output_sizes k need inumel onumel log = (inl SizeExceeded, log).
Proof.
  induction k as [|k IH]; intros need inumel onumel log Hi Hbig; [lia |].
  cbn [Mkl.preflight_loop]. unfold bind.
  destruct (Nat.eq_dec i k) as [->|Hne].
  - destruct (Z.leb_spec (size input k) MKL_LONG_MAX);
      destruct (Z.leb_spec (at_ output_sizes k) MKL_LONG_MAX);
      simpl; try reflexivity; lia.
  - destruct ((_ <=? _) && (_ <=? _) && (_ <=? _)); simpl; [| reflexivity].
    destruct (negb _ || (_ <=? _)); simpl; [| reflexivity].
    apply IH; [lia | exact Hbig].
Qed.

Lemma extent_product_pos (bound : Z) (sizes : list Z) (k : nat) :
  extents_within bound sizes k = true -> 1 <= extent_product sizes k.
Proof.
  induction k as [|k IH]; simpl; [lia |].
  intros H. apply andb_prop in H as [H Hk]. apply andb_prop in H as [H1 _].
  apply Z.leb_le in H1. specialize (IH Hk). nia.
Qed.

(** Extents of the input and of the output within [1 .. MKL_LONG_MAX] and
    element counts within [MKL_LONG_MAX] pass the loop. *)
Lemma preflight_loop_accepts (input : Tensor) (ci : bool) (output_sizes : list Z)
    (k : nat) : forall need inumel onumel log,
  extents_within MKL_LONG_MAX (sizes input) k = true ->
  extents_within MKL_LONG_MAX output_sizes k = true ->
  1 <= inumel -> 1 <= onumel ->
  inumel * extent_product (sizes input) k <= MKL_LONG_MAX ->
  onumel * extent_product output_sizes k <= MKL_LONG_MAX ->
  exists b,
    preflight_loop input ci output_sizes k need inumel onumel log = (inr b, log).
Proof.
  induction k as [|k IH]; intros need inumel onumel log Hi Ho Hin Hon Hip Hop.
  - exists need. reflexivity.
  - simpl in Hi, Ho, Hip, Hop.
    apply andb_prop in Hi as [Hi Hik]. apply andb_prop in Hi as [Hi1 Hi2].
    apply andb_prop in Ho as [Ho Hok]. apply andb_prop in Ho as [Ho1 Ho2].
    apply Z.leb_le in Hi1, Hi2, Ho1, Ho2.
    pose proof (extent_product_pos _ _ _ Hik) as Pi.
    pose proof (extent_product_pos _ _ _ Hok) as Po.
    cbn [Mkl.preflight_loop]. unfold bind, size.
    assert (onumel <= MKL_LONG_MAX) as Hon'.
    { assert (1 <= at_ output_sizes k * extent_product output_sizes k) by nia.
      assert (onumel * 1 <= onumel * (at_ output_sizes k * extent_product output_sizes k))
        by (apply Z.mul_le_mono_nonneg_l; lia).
      lia. }
    assert (inumel <= MKL_LONG_MAX) as Hin'.
    { assert (1 <= at_ (sizes input) k * extent_product (sizes input) k) by nia.
      assert (inumel * 1
              <= inumel * (at_ (sizes input) k * extent_product (sizes input) k))
        by (apply Z.mul_le_mono_nonneg_l; lia).
      lia. }
    destruct (Z.leb_spec (at_ (sizes input) k) MKL_LONG_MAX); [| lia].
    destruct (Z.leb_spec (at_ output_sizes k) MKL_LONG_MAX); [| lia].
    destruct (Z.leb_spec onumel MKL_LONG_MAX); [| lia]. simpl.
    destruct (Z.leb_spec inumel MKL_LONG_MAX); [| lia].
    rewrite orb_true_r. simpl.
    apply IH; try assumption; try nia;
      rewrite <- Z.mul_assoc; assumption.
Qed.

Lemma preflight_accepts (input : Tensor) (signal_ndim : Z) (ci : bool)
    (output_sizes : list Z) log :
  extents_within MKL_LONG_MAX (sizes input) (Z.to_nat (signal_ndim + 1)) = true ->
  extents_within MKL_LONG_MAX output_sizes (Z.to_nat (signal_ndim + 1)) = true ->
  extent_product (sizes input) (Z.to_nat (signal_ndim + 1)) <= MKL_LONG_MAX ->
  extent_product output_sizes (Z.to_nat (signal_ndim + 1)) <= MKL_LONG_MAX ->
  preflight input signal_ndim ci output_sizes log = (inr tt, log).
Proof.
  intros Hi Ho Hip Hop. unfold Mkl.preflight, when.
  destruct MKL_LONG_is_narrow; [| reflexivity]. unfold bind.
  destruct (preflight_loop_accepts input ci output_sizes (Z.to_nat (signal_ndim + 1))
              false 1 1 log Hi Ho ltac:(lia) ltac:(lia) ltac:(lia) ltac:(lia)) as [b E].
  now rewrite E.
Qed.

(** ** The events of a completed run *)

Ltac run_step H :=
  let a := fresh "a" in
  let l := fresh "l" in
  let E := fresh "E" in
  apply bind_inr in H; destruct H as (a & l & E & H);
  first
    [ apply dfti_inr in E
    | apply emit_inr in E
    | apply preflight_inr in E
    | apply ret_inr in E; destruct E as [_ E] ];
  subst l.

Lemma completed_run self signal_ndim ci co inverse css norm onesided osz output log :
  _fft_mkl self signal_ndim ci co inverse css norm onesided osz [] = (inr output, log) ->
  output = empty_layout osz (scalar_type self)
  /\ (scalar_type self = Float \/ scalar_type self = Double)
  /\ log = completed_events self signal_ndim ci co inverse css norm onesided osz.
Proof.
  unfold Mkl._fft_mkl, completed_events. intros H.
  apply bind_inr in H. destruct H as (input & l0 & E0 & H).
  rewrite align_complex_input_spec in E0.
  assert (scalar_type input = scalar_type self) as Ety.
  { destruct (ci && _); inversion E0; reflexivity. }
  run_step H. run_step H.
  apply bind_inr in H. destruct H as (prec & l1 & E1 & H).
  apply select_precision_inr in E1. destruct E1 as [-> Hprec].
  rewrite Ety in *.
  assert (prec = match scalar_type self with Double => DFTI_DOUBLE | _ => DFTI_SINGLE end)
    as Eprec.
  { destruct Hprec as [[-> ->]|[-> ->]]; reflexivity. }
  do 7 run_step H.
  unfold when, Mkl.rescale, fill_other_half in H.
  destruct (ci && needs_alignment self signal_ndim) eqn:Ealign;
    inversion E0; subst input l0; clear E0;
    destruct (negb ci || negb co) eqn:Ecce;
    destruct (negb (norm =? fft_norm_mode_none)) eqn:Enorm;
    destruct (negb inverse) eqn:Einv;
    destruct (negb ci && co && negb onesided) eqn:Efill;
    repeat run_step H;
    apply ret_inr in H; destruct H as [-> ->];
    (split; [reflexivity |]);
    (split; [destruct Hprec as [[? _]|[? _]]; auto |]);
    rewrite Eprec; simpl; rewrite <- ?app_assoc; reflexivity.
Qed.

(** From the preflight on, a request of an unsupported element type stops at
    the preflight or at the choice of the precision. *)
Lemma unsupported_stops {B : Type} (input : Tensor) (signal_ndim : Z) (ci : bool)
    (output_sizes : list Z) (dtype : ScalarType)
    (k : DFTI_CONFIG_VALUE -> M B) (log : list event) :
  scalar_type input <> Float -> scalar_type input <> Double ->
  let r := (preflight input signal_ndim ci output_sizes ;;
            emit (EvEmpty output_sizes dtype) ;;
            prec <- select_precision input ;; k prec) log in
  (r = (inl (UnsupportedType (scalar_type input)), log ++ [EvEmpty output_sizes dtype]))
  \/ (MKL_LONG_is_narrow = true /\ r = (inl SizeExceeded, log)).
Proof.
  intros Hf Hd r. subst r.
  destruct (preflight_outcome input signal_ndim ci output_sizes log) as [E|E].
  - right. split.
    + unfold Mkl.preflight, when in E. destruct MKL_LONG_is_narrow; [reflexivity |].
      discriminate.
    + unfold bind at 1. now rewrite E.
  - left. unfold bind at 1. rewrite E. unfold bind, emit, select_precision.
    destruct (scalar_type input); try contradiction; reflexivity.
Qed.

End Engine.

End MklFacts.

(** * The transform configurator: properties *)

Module MklProperties.
Import Mkl MklFacts MklExamples.

Ltac emits_auto :=
  repeat first
    [ apply emits_ret
    | apply emits_throw
    | apply emits_preflight
    | apply emits_select_precision
    | apply emits_check
    | apply emits_emit; reflexivity
    | apply emits_dfti; reflexivity
    | apply emits_when
    | apply emits_bind; [| intros ?]
    | match goal with |- emits _ (if ?c then _ else _) => destruct c end ].

(** C5, as amended. A complex input is replaced by a contiguous copy,
    before anything else is done, if and only if its last stride is not 1
    or the stride of one of the dimensions [0 .. signal_ndim] -- the batch
    dimension and the transformed dimensions -- is odd; otherwise the input
    is used as it is. No other copy is requested. *)
Theorem complex_input_copied_iff_misaligned
    (narrow : bool) (MKL_LONG_MAX none by_root_n : Z)
    (dfti_status : list event -> dfti_call -> bool)
    (self : Tensor) (signal_ndim : Z) (complex_output inverse : bool)
    (checked_signal_sizes : list Z) (normalization : Z) (onesided : bool)
    (output_sizes : list Z) :
  let misaligned :=
    negb (last_stride self =? 1)
    || existsb (fun i => negb (Z.rem (stride self i) 2 =? 0))
               (seq 0 (Z.to_nat (signal_ndim + 1))) in
  let log :=
    snd (_fft_mkl narrow MKL_LONG_MAX none by_root_n dfti_status self signal_ndim
                  true complex_output inverse checked_signal_sizes normalization
                  onesided output_sizes []) in
  fst (align_complex_input self signal_ndim true [])
  = inr (if misaligned then contiguous_layout self else self)
  /\ exists rest,
       log = (if misaligned then [EvContiguous self] else []) ++ rest
       /\ Forall (fun ev => is_contiguous_event ev = false) rest.
Proof.
  intros misaligned log. split.
  - rewrite align_complex_input_spec. simpl andb.
    change (needs_alignment self signal_ndim) with misaligned.
    now destruct misaligned.
  - unfold log, _fft_mkl. unfold bind at 1.
    rewrite align_complex_input_spec. simpl andb.
    change (needs_alignment self signal_ndim) with misaligned.
    destruct misaligned; cbv beta iota;
      match goal with
      | |- exists rest, snd (?m ?l) = _ /\ _ =>
        assert (emits (fun ev => is_contiguous_event ev = false) m) as Hm
          by (unfold rescale, fill_other_half; emits_auto);
        destruct (Hm l) as (evs & E & F); exists evs; rewrite E; auto
      end.
Qed.

(** C5 as the spec states it: here the last stride is 1 and the stride of
    the only transformed dimension is even, yet the input is copied (its
    batch stride is odd). *)
Lemma odd_batch_stride_forces_copy :
  last_stride odd_batch_stride_input = 1
  /\ forallb (fun i => Z.rem (stride odd_batch_stride_input i) 2 =? 0) (seq 1 1) = true
  /\ head (snd (fft_wide odd_batch_stride_input 1 true true false [4] 0 true [2; 4; 2] []))
     = Some (EvContiguous odd_batch_stride_input).
Proof. repeat split. Qed.

(** C6, as amended. A request whose element type is neither single nor
    double precision always fails, and no call to the engine is made: the
    error is the unsupported-type error, unless the engine's index type is
    narrow and the overflow preflight, which runs first, has already raised
    the size-exceeded error. *)
Theorem unsupported_type_fails_before_engine
    (narrow : bool) (MKL_LONG_MAX none by_root_n : Z)
    (dfti_status : list event -> dfti_call -> bool)
    (self : Tensor) (signal_ndim : Z) (complex_input complex_output inverse : bool)
    (checked_signal_sizes : list Z) (normalization : Z) (onesided : bool)
    (output_sizes : list Z) :
  scalar_type self <> Float ->
  scalar_type self <> Double ->
  let run :=
    _fft_mkl narrow MKL_LONG_MAX none by_root_n dfti_status self signal_ndim
             complex_input complex_output inverse checked_signal_sizes normalization
             onesided output_sizes [] in
  (fst run = inl (UnsupportedType (scalar_type self))
   \/ (narrow = true /\ fst run = inl SizeExceeded))
  /\ Forall (fun ev => is_engine_event ev = false) (snd run).
Proof.
  intros Hf Hd run. subst run.
  match goal with |- context [snd ?x] => remember x as r eqn:Er end.
  unfold _fft_mkl in Er. unfold bind at 1 in Er.
  rewrite align_complex_input_spec in Er.
  destruct (complex_input && needs_alignment self signal_ndim); cbv beta iota in Er.
  - edestruct (unsupported_stops narrow MKL_LONG_MAX (B:=Tensor) (contiguous_layout self))
      as [E|[Hn E]]; [exact Hf | exact Hd | rewrite E in Er | rewrite E in Er];
      subst r; simpl.
    + split; [now left | repeat constructor].
    + split; [now right | repeat constructor].
  - edestruct (unsupported_stops narrow MKL_LONG_MAX (B:=Tensor) self)
      as [E|[Hn E]]; [exact Hf | exact Hd | rewrite E in Er | rewrite E in Er];
      subst r; simpl.
    + split; [now left | repeat constructor].
    + split; [now right | repeat constructor].
Qed.

(** An integer batch on a 64-bit engine: the unsupported-type error, after
    the allocation of the output and before any call to the engine. *)
Lemma unsupported_type_fails_before_engine_witness :
  let run := fft_wide int_input 1 false true false [8] 0 true [2; 5; 2] [] in
  (fst run = inl (UnsupportedType (OtherType 3))
   \/ (false = true /\ fst run = inl SizeExceeded))
  /\ Forall (fun ev => is_engine_event ev = false) (snd run).
Proof.
  apply (unsupported_type_fails_before_engine false 9223372036854775807 0 1 accept_all
           int_input 1 false true false [8] 0 true [2; 5; 2]);
    simpl; discriminate.
Defined.

(** C6 as the spec states it: on a 32-bit engine a request of an
    unsupported element type with an extent of 2^31 fails with the
    size-exceeded error, not with the unsupported-type error. *)
Lemma unsupported_type_meets_preflight_first :
  fst (fft_narrow oversized_int_input 1 false true false [2147483648] 0 true
                  [1; 1073741825; 2] [])
  = inl SizeExceeded
  /\ fst (fft_narrow oversized_int_input 1 false true false [2147483648] 0 true
                     [1; 1073741825; 2] [])
     <> inl (UnsupportedType (scalar_type oversized_int_input)).
Proof. split; [reflexivity | discriminate]. Qed.

(** C7. In a completed run the engine receives a scale exactly when the
    normalization mode is not [none]: one value, for the backward-scale
    parameter when the direction is inverse and for the forward-scale
    parameter otherwise; the value is [1 / sqrt(n)] for the mode [by_root_n]
    and [1 / n] for any other mode, [n] being the product of the signal
    sizes, as a double for a double-precision buffer and rounded to single
    precision for a single-precision one. *)
Theorem normalization_sets_scale
    (narrow : bool) (MKL_LONG_MAX none by_root_n : Z)
    (dfti_status : list event -> dfti_call -> bool)
    (self : Tensor) (signal_ndim : Z) (complex_input complex_output inverse : bool)
    (checked_signal_sizes : list Z) (normalization : Z) (onesided : bool)
    (output_sizes : list Z) (output : Tensor) :
  let run :=
    _fft_mkl narrow MKL_LONG_MAX none by_root_n dfti_status self signal_ndim
             complex_input complex_output inverse checked_signal_sizes normalization
             onesided output_sizes [] in
  fst run = inr output ->
  List.filter is_scale_event (snd run)
  = if normalization =? none then []
    else
      let signal_numel := prod_intlist checked_signal_sizes in
      let double_scale :=
        if normalization =? by_root_n then InvSqrt signal_numel else Inv signal_numel in
      [EvDfti (DftiSetValue
                 (if inverse then DFTI_BACKWARD_SCALE else DFTI_FORWARD_SCALE)
                 (match scalar_type self with
                  | Double => ArgDouble double_scale
                  | _ => ArgFloat double_scale
                  end))].
Proof.
  intros run Hrun.
  destruct run as [res log] eqn:Erun. simpl in Hrun. subst res.
  apply completed_run in Erun. destruct Erun as (_ & Hty & ->).
  unfold completed_events. simpl.
  destruct (complex_input && needs_alignment self signal_ndim),
    (negb complex_input || negb complex_output),
    (normalization =? none), inverse,
    (negb complex_input && complex_output && negb onesided);
    destruct Hty as [-> | ->]; reflexivity.
Qed.

Lemma normalization_sets_scale_witness :
  let run := fft_wide real_input 1 false true true [8] 1 true [2; 5; 2] [] in
  fst run = inr (empty_layout [2; 5; 2] Float)
  /\ List.filter is_scale_event (snd run)
     = [EvDfti (DftiSetValue DFTI_BACKWARD_SCALE (ArgFloat (InvSqrt 8)))].
Proof.
  split; [reflexivity |].
  apply (normalization_sets_scale false 9223372036854775807 0 1 accept_all
           real_input 1 false true true [8] 1 true [2; 5; 2]
           (empty_layout [2; 5; 2] Float)).
  reflexivity.
Defined.

(** C8. In a completed run the conjugate-symmetry fill is invoked exactly
    when the input is real, the output is complex and the caller did not ask
    for a onesided result; it is invoked once, as the last step, on the
    complex view of the output buffer of the run, over the dimensions
    [1 .. signal_ndim]. *)
Theorem fill_invoked_iff_full_real_spectrum
    (narrow : bool) (MKL_LONG_MAX none by_root_n : Z)
    (dfti_status : list event -> dfti_call -> bool)
    (self : Tensor) (signal_ndim : Z) (complex_input complex_output inverse : bool)
    (checked_signal_sizes : list Z) (normalization : Z) (onesided : bool)
    (output_sizes : list Z) (output : Tensor) :
  let run :=
    _fft_mkl narrow MKL_LONG_MAX none by_root_n dfti_status self signal_ndim
             complex_input complex_output inverse checked_signal_sizes normalization
             onesided output_sizes [] in
  fst run = inr output ->
  let wanted := negb complex_input && complex_output && negb onesided in
  let fill := EvFillConjugateSymmetry (view_as_complex output) (seqZ 1 signal_ndim) in
  List.filter is_fill_event (snd run) = (if wanted then [fill] else [])
  /\ (wanted = true -> last (snd run) = Some fill).
Proof.
  intros run Hrun.
  destruct run as [res log] eqn:Erun. simpl in Hrun. subst res.
  apply completed_run in Erun. destruct Erun as (-> & Hty & ->).
  unfold completed_events. simpl.
  destruct (complex_input && needs_alignment self signal_ndim),
    (negb complex_input || negb complex_output),
    (negb (normalization =? none)),
    (negb complex_input && complex_output && negb onesided);
    (split; [reflexivity | intros H; (discriminate H || reflexivity)]).
Qed.

Lemma fill_invoked_iff_full_real_spectrum_witness :
  let run := fft_wide real_input 1 false true false [8] 0 false [2; 8; 2] [] in
  let fill := EvFillConjugateSymmetry
                (view_as_complex (empty_layout [2; 8; 2] Float)) [1] in
  fst run = inr (empty_layout [2; 8; 2] Float)
  /\ List.filter is_fill_event (snd run) = [fill]
  /\ (true = true -> last (snd run) = Some fill).
Proof.
  split; [reflexivity |].
  apply (fill_invoked_iff_full_real_spectrum false 9223372036854775807 0 1 accept_all
           real_input 1 false true false [8] 0 false [2; 8; 2]
           (empty_layout [2; 8; 2] Float)).
  reflexivity.
Defined.

(** C3 at a failing input. On a 32-bit engine, for a two-element real input
    whose strides exceed the 32-bit range, the preflight loop ends with its
    flag [need_contiguous] set and lets the request pass; no contiguous copy
    follows, and the engine is configured with the strides of the original
    input, wrapped to 32 bits, and run on the original input. *)
Theorem oversized_stride_is_not_copied :
  let output := empty_layout [1; 2; 2] Float in
  fst (preflight_loop 2147483647 wide_stride_input false [1; 2; 2] 2 false 1 1 [])
  = inr true
  /\ fft_narrow wide_stride_input 1 false true false [2] 0 true [1; 2; 2] []
     = (inr output,
        [EvEmpty [1; 2; 2] Float;
         EvDfti (DescriptorInit DFTI_SINGLE DFTI_REAL 1 [2]);
         EvDfti (DftiSetValue DFTI_PLACEMENT (ArgValue DFTI_NOT_INPLACE));
         EvDfti (DftiSetValue DFTI_NUMBER_OF_TRANSFORMS (ArgLong 1));
         EvDfti (DftiSetValue DFTI_INPUT_DISTANCE (ArgLong 0));
         EvDfti (DftiSetValue DFTI_OUTPUT_DISTANCE (ArgLong 2));
         EvDfti (DftiSetValue DFTI_INPUT_STRIDES (ArgLongs [0; 0]));
         EvDfti (DftiSetValue DFTI_OUTPUT_STRIDES (ArgLongs [0; 1]));
         EvDfti (DftiSetValue DFTI_CONJUGATE_EVEN_STORAGE (ArgValue DFTI_COMPLEX_COMPLEX));
         EvDfti DftiCommitDescriptor;
         EvDfti (DftiComputeForward wide_stride_input output)]).
Proof. split; reflexivity. Qed.

(** X2. For comparison, the part of the preflight that holds: on a narrow
    engine an extent beyond [MKL_LONG_MAX], of the input or of the output,
    in one of the dimensions [0 .. signal_ndim] fails the request with the
    size-exceeded error. *)
Lemma oversized_extent_is_rejected
    (MKL_LONG_MAX none by_root_n : Z)
    (dfti_status : list event -> dfti_call -> bool)
    (self : Tensor) (signal_ndim : Z) (complex_input complex_output inverse : bool)
    (checked_signal_sizes : list Z) (normalization : Z) (onesided : bool)
    (output_sizes : list Z) (i : nat) :
  (i < Z.to_nat (signal_ndim + 1))%nat ->
  MKL_LONG_MAX < size self i \/ MKL_LONG_MAX < at_ output_sizes i ->
  fst (_fft_mkl true MKL_LONG_MAX none by_root_n dfti_status self signal_ndim
                complex_input complex_output inverse checked_signal_sizes normalization
                onesided output_sizes [])
  = inl SizeExceeded.
Proof.
  intros Hi Hbig. unfold _fft_mkl. unfold bind at 1.
  rewrite align_complex_input_spec.
  destruct (complex_input && needs_alignment self signal_ndim); cbv beta iota;
    unfold bind at 1; unfold preflight, when; unfold bind at 1;
    rewrite (preflight_loop_rejects_extent MKL_LONG_MAX _ _ _ i) by assumption;
    reflexivity.
Qed.

End MklProperties.

(** * The conjugate-symmetry fill: coordinates, layouts and the driver *)

Module FillTheory.
Import Fill FillFacts Layout.

Local Abbreviation slice := _fft_fill_with_conjugate_symmetry_slice.

(** ** Extents read by index and as a list *)

Lemma sizes_positive_at (ss : list Z) (n : nat) : forall i j,
  sizes_positive ss n i = true -> (i <= j < i + n)%nat -> 0 < at_ ss j.
Proof.
  induction n as [|n IH]; intros i j H Hj; [lia |].
  simpl in H. apply andb_prop in H as [H0 H]. apply Z.ltb_lt in H0.
  destruct (Nat.eq_dec i j) as [<-|Hne]; [exact H0 |].
  apply (IH (S i)); [exact H | lia].
Qed.

Lemma sizes_positive_Forall (ss : list Z) :
  sizes_positive ss (length ss) 0 = true -> Forall (fun s => 0 < s) ss.
Proof.
  intros H. apply Forall_lookup. intros j x Hx.
  pose proof (lookup_lt_Some _ _ _ Hx) as Hj.
  pose proof (sizes_positive_at ss (length ss) 0 j H ltac:(lia)) as Hp.
  unfold at_ in Hp. now rewrite Hx in Hp.
Qed.

Lemma sizes_positive_tail (ss : list Z) (n : nat) :
  length ss = S n -> sizes_positive ss (length ss) 0 = true ->
  0 < at_ ss 0 /\ sizes_positive ss (length ss - 1) 1 = true.
Proof.
  intros En H. rewrite En in *. simpl in H.
  apply andb_prop in H as [H0 H]. apply Z.ltb_lt in H0.
  replace (S n - 1)%nat with n by lia. auto.
Qed.

Lemma prod_positive (ss : list Z) :
  Forall (fun s => 0 < s) ss -> 0 < prod_intlist ss.
Proof.
  induction 1 as [|s ss Hs _ IH]; simpl; [lia |]. fold (prod_intlist ss). nia.
Qed.

(** ** Coordinates *)

Lemma unravel_in_bounds (ss : list Z) : forall k,
  Forall (fun s => 0 < s) ss -> in_bounds (unravel ss k) ss.
Proof.
  induction ss as [|s ss IH]; intros k H; simpl; [constructor |].
  apply Forall_cons in H as [Hs H]. constructor.
  - apply Z.mod_pos_bound. exact Hs.
  - apply IH. exact H.
Qed.

Lemma reflect_bounds (m : bool) (s c : Z) :
  0 <= c < s -> 0 <= reflect m s c < s.
Proof.
  intros H. unfold reflect. destruct m; simpl; [| lia].
  destruct (Z.gtb_spec c 0); lia.
Qed.

Lemma reflect_involutive (m : bool) (s c : Z) :
  0 <= c < s -> reflect m s (reflect m s c) = c.
Proof.
  intros H. unfold reflect. destruct m; simpl; [| reflexivity].
  destruct (Z.gtb_spec c 0) as [Hc|Hc].
  - destruct (Z.gtb_spec (s - c) 0); lia.
  - destruct (Z.gtb_spec c 0); lia.
Qed.

Lemma mirror_in_bounds (ms : list bool) (ss c : list Z) :
  length ms = length ss -> in_bounds c ss -> in_bounds (mirror ms ss c) ss.
Proof.
  intros Hm Hc. revert ms Hm.
  induction Hc as [|ci s c ss Hci _ IH]; intros ms Hm.
  - destruct ms; constructor.
  - destruct ms as [|m ms]; [discriminate |]. simpl. constructor.
    + now apply reflect_bounds.
    + apply IH. simpl in Hm. lia.
Qed.

Lemma mirror_involutive (ms : list bool) (ss c : list Z) :
  length ms = length ss -> in_bounds c ss -> mirror ms ss (mirror ms ss c) = c.
Proof.
  intros Hm Hc. revert ms Hm.
  induction Hc as [|ci s c ss Hci _ IH]; intros ms Hm.
  - destruct ms; reflexivity.
  - destruct ms as [|m ms]; [discriminate |]. simpl.
    rewrite reflect_involutive by exact Hci. rewrite IH by (simpl in Hm; lia).
    reflexivity.
Qed.

Lemma dot_packed (ss : list Z) : forall unit c,
  length c = length ss -> dot c (packed_strides unit ss) = unit * ravel ss c.
Proof.
  induction ss as [|s ss IH]; intros unit c Hc.
  - destruct c; [simpl; lia | discriminate].
  - destruct c as [|ci c]; [discriminate |]. simpl.
    rewrite IH by (simpl in Hc; lia). lia.
Qed.

Lemma in_bounds_length (c ss : list Z) : in_bounds c ss -> length c = length ss.
Proof. apply Forall2_length. Qed.

Lemma ravel_bounds (ss c : list Z) :
  in_bounds c ss -> 0 <= ravel ss c < prod_intlist ss.
Proof.
  induction 1 as [|ci s c ss Hci _ IH]; simpl; [lia |].
  fold (prod_intlist ss). nia.
Qed.

Lemma ravel_unravel (ss : list Z) : forall k,
  Forall (fun s => 0 < s) ss -> 0 <= k < prod_intlist ss ->
  ravel ss (unravel ss k) = k.
Proof.
  induction ss as [|s ss IH]; intros k H Hk; simpl in *; [lia |].
  fold (prod_intlist ss) in Hk.
  apply Forall_cons in H as [Hs H].
  rewrite IH.
  - pose proof (Z.div_mod k s ltac:(lia)). lia.
  - exact H.
  - split; [apply Z.div_pos; lia |].
    apply Z.div_lt_upper_bound; lia.
Qed.

Lemma ravel_inj (ss : list Z) : forall c1 c2,
  in_bounds c1 ss -> in_bounds c2 ss -> ravel ss c1 = ravel ss c2 -> c1 = c2.
Proof.
  induction ss as [|s ss IH]; intros c1 c2 H1 H2 E.
  - inversion H1; inversion H2; reflexivity.
  - inversion H1 as [|a1 ? r1 ? Ha1 Hr1]; subst.
    inversion H2 as [|a2 ? r2 ? Ha2 Hr2]; subst.
    simpl in E.
    destruct (Z.div_mod_unique s (ravel ss r1) (ravel ss r2) a1 a2) as [Eq Er];
      [left; lia | left; lia | lia |].
    f_equal; [exact Er | now apply IH].
Qed.

Lemma unravel_ravel (ss c : list Z) :
  Forall (fun s => 0 < s) ss -> in_bounds c ss -> unravel ss (ravel ss c) = c.
Proof.
  intros H Hc. apply (ravel_inj ss).
  - now apply unravel_in_bounds.
  - exact Hc.
  - apply ravel_unravel; [exact H | now apply ravel_bounds].
Qed.


(** ** The kernel on a range without elements *)

(** X3. With positive extents, a range with [end <= begin] leaves the
    memory and the record of assignments as they are. *)
Theorem slice_empty_range {T : Type} (neg : T -> T)
    (ms : list bool) (ss is_ os : list Z) (in0 out0 : Z) (range : Range) (h : heap) :
  (1 <= length ss)%nat ->
  sizes_positive ss (length ss) 0 = true ->
  range_end range <= range_begin range ->
  slice neg ms ss is_ os range in0 out0 h = Some h.
Proof.
  intros Hnd Hpos Hrange. unfold slice, _fft_fill_with_conjugate_symmetry_slice.
  destruct (length ss) as [|n] eqn:En; [lia |].
  destruct (sizes_positive_tail ss n En ltac:(now rewrite En)) as [Hs0 Hrows].
  assert (exists cu,
            seek ms ss is_ os range (Cursor (replicate (S n) 0) in0 out0) = Some cu
            /\ 0 <= at_ (iter_index cu) 0 < at_ ss 0) as (cu & -> & Ha).
  { destruct (Z.le_gt_cases 0 (range_begin range)) as [Hb|Hb].
    - rewrite <- En.
      destruct (seek_at ms ss is_ os Hrows in0 out0 range ltac:(lia) Hs0 Hb)
        as (cu & E & Hidx & _).
      exists cu. split; [exact E |]. rewrite Hidx.
      change (at_ (?a :: _) 0) with a. now apply Z.mod_pos_bound.
    - exists (Cursor (replicate (S n) 0) in0 out0). split.
      + unfold seek. destruct (Z.gtb_spec (range_begin range) 0); [lia | reflexivity].
      + simpl. unfold at_ at 1 2. simpl. lia. }
  unfold fill_rows.
  set (rem := range_end range - range_begin range).
  assert (rem <= 0) as Hrem by (unfold rem; lia).
  assert (Z.to_nat rem = 0%nat) as -> by lia.
  destruct (flag ms 0).
  - destruct (Z.gtb_spec (at_ (iter_index cu) 0) 0) as [Hgt|Hle].
    + rewrite Z.min_r by lia.
      unfold mirrored_columns, for_lt.
      replace (Z.to_nat (at_ (iter_index cu) 0 + rem - at_ (iter_index cu) 0))
        with 0%nat by lia.
      replace (rem - (at_ (iter_index cu) 0 + rem - at_ (iter_index cu) 0))
        with 0 by lia.
      reflexivity.
    + simpl. destruct (Z.gtb_spec rem 0); [lia | reflexivity].
  - simpl. destruct (Z.gtb_spec rem 0); [lia | reflexivity].
Qed.

Lemma slice_empty_range_witness :
  slice Z.opp [true; false] [3; 2] [1; 3] [1; 3] (mkRange 4 4) 0 10
        (Examples.fresh Examples.four_values)
  = Some (Examples.fresh Examples.four_values).
Proof.
  apply (slice_empty_range Z.opp [true; false] [3; 2] [1; 3] [1; 3] 0 10 (mkRange 4 4)).
  - simpl. lia.
  - reflexivity.
  - simpl. lia.
Defined.



(** ** Packed buffers *)

Lemma length_packed_strides (ss : list Z) : forall unit,
  length (packed_strides unit ss) = length ss.
Proof. induction ss as [|s ss IH]; intros unit; simpl; [reflexivity | now rewrite IH]. Qed.

Lemma packed_write_of (ms : list bool) (ss : list Z) (in0 out0 k : Z) :
  Forall (fun s => 0 < s) ss -> length ms = length ss ->
  0 <= k < prod_intlist ss ->
  write_of ms ss (packed_strides 1 ss) (packed_strides 1 ss) in0 out0 k
  = (out0 + ravel ss (mirror ms ss (unravel ss k)), in0 + k).
Proof.
  intros Hpos Hm Hk. unfold write_of.
  pose proof (unravel_in_bounds ss k Hpos) as Hb.
  rewrite !dot_packed.
  - rewrite ravel_unravel by assumption. f_equal; lia.
  - now apply in_bounds_length.
  - apply in_bounds_length. now apply mirror_in_bounds.
Qed.

Lemma packed_trace {T : Type} (neg : T -> T)
    (ms : list bool) (ss : list Z) (in0 out0 : Z) (h : heap) :
  length ms = length ss -> (1 <= length ss)%nat ->
  sizes_positive ss (length ss) 0 = true ->
  mirrored_extents_ok ms ss (length ss - 1) 1 = true ->
  slice neg ms ss (packed_strides 1 ss) (packed_strides 1 ss)
        (mkRange 0 (prod_intlist ss)) in0 out0 h
  = Some (exec neg (packed_writes ms ss in0 out0) h).
Proof.
  intros Hm Hnd Hpos Hok.
  pose proof (sizes_positive_Forall ss Hpos) as HF.
  pose proof (prod_positive ss HF) as Hprod.
  destruct (length ss) as [|n] eqn:En; [lia |].
  destruct (sizes_positive_tail ss n En ltac:(now rewrite En)) as [Hs0 Hrows].
  rewrite En in Hrows.
  rewrite (slice_trace neg ms ss _ _ in0 out0); try assumption;
    try (rewrite En; assumption || lia); try (simpl; lia).
  simpl. rewrite Z.sub_0_r. do 2 f_equal. unfold packed_writes.
  apply map_ext_in. intros k Hk.
  apply list_elem_of_In, elem_of_seqZ in Hk.
  rewrite wr_write_of by (rewrite ?length_packed_strides; congruence).
  apply packed_write_of; try assumption; lia.
Qed.

Lemma packed_destination_inj (ms : list bool) (ss : list Z) (k1 k2 : Z) :
  Forall (fun s => 0 < s) ss -> length ms = length ss ->
  0 <= k1 < prod_intlist ss -> 0 <= k2 < prod_intlist ss ->
  ravel ss (mirror ms ss (unravel ss k1)) = ravel ss (mirror ms ss (unravel ss k2)) ->
  k1 = k2.
Proof.
  intros Hpos Hm H1 H2 E.
  pose proof (unravel_in_bounds ss k1 Hpos) as B1.
  pose proof (unravel_in_bounds ss k2 Hpos) as B2.
  apply ravel_inj in E; try (apply mirror_in_bounds; assumption).
  apply (f_equal (mirror ms ss)) in E.
  rewrite !mirror_involutive in E by assumption.
  apply (f_equal (ravel ss)) in E.
  now rewrite !ravel_unravel in E by assumption.
Qed.

Lemma packed_destinations (ms : list bool) (ss : list Z) (in0 out0 : Z) :
  Forall (fun s => 0 < s) ss -> length ms = length ss ->
  NoDup (map fst (packed_writes ms ss in0 out0))
  /\ Forall (fun d => out0 <= d < out0 + prod_intlist ss)
            (map fst (packed_writes ms ss in0 out0)).
Proof.
  intros Hpos Hm. unfold packed_writes. rewrite map_map. simpl. split.
  - apply NoDup_fmap_2_strong; [| apply NoDup_seqZ].
    intros k1 k2 H1 H2 E. apply elem_of_seqZ in H1, H2.
    apply (packed_destination_inj ms ss k1 k2); try assumption; lia.
  - apply Forall_fmap, Forall_forall. intros k Hk. simpl.
    pose proof (ravel_bounds ss (mirror ms ss (unravel ss k))
                  (mirror_in_bounds _ _ _ Hm (unravel_in_bounds ss k Hpos))).
    lia.
Qed.

(** X4. On packed buffers with positive extents and no mirrored dimension
    of extent 1 above dimension 0, a run over the whole index space reads
    the input elements in their order and writes every element of the
    output, each exactly once and none outside it. *)
Theorem packed_fill_writes_each_element_once {T : Type} (neg : T -> T)
    (ms : list bool) (ss : list Z) (in0 out0 : Z) (h : heap) :
  length ms = length ss -> (1 <= length ss)%nat ->
  sizes_positive ss (length ss) 0 = true ->
  mirrored_extents_ok ms ss (length ss - 1) 1 = true ->
  let numel := prod_intlist ss in
  exists h' ws,
    slice neg ms ss (packed_strides 1 ss) (packed_strides 1 ss)
          (mkRange 0 numel) in0 out0 h = Some h'
    /\ writes h' = writes h ++ ws
    /\ map snd ws = seqZ in0 numel
    /\ NoDup (map fst ws)
    /\ Forall (fun d => out0 <= d < out0 + numel) (map fst ws)
    /\ length ws = Z.to_nat numel.
Proof.
  intros Hm Hnd Hpos Hok numel.
  pose proof (sizes_positive_Forall ss Hpos) as HF.
  destruct (packed_destinations ms ss in0 out0 HF Hm) as [Hdup Hrange].
  exists (exec neg (packed_writes ms ss in0 out0) h), (packed_writes ms ss in0 out0).
  split; [now apply packed_trace |].
  split; [apply writes_exec |].
  split; [| split; [exact Hdup | split; [exact Hrange |]]].
  - unfold packed_writes. rewrite map_map. simpl.
    transitivity (Z.add in0 <$> seqZ 0 numel); [reflexivity |].
    rewrite fmap_add_seqZ. f_equal. lia.
  - unfold packed_writes. now rewrite length_map, length_seqZ.
Qed.


Lemma packed_fill_writes_each_element_once_witness :
  exists h' ws,
    slice Z.opp [false; true] [2; 3] (packed_strides 1 [2; 3]) (packed_strides 1 [2; 3])
          (mkRange 0 6) 0 10 (Examples.fresh Examples.four_values) = Some h'
    /\ writes h' = [] ++ ws
    /\ map snd ws = seqZ 0 6
    /\ NoDup (map fst ws)
    /\ Forall (fun d => 10 <= d < 10 + 6) (map fst ws)
    /\ length ws = 6%nat.
Proof.
  apply (packed_fill_writes_each_element_once Z.opp [false; true] [2; 3] 0 10
           (Examples.fresh Examples.four_values)); reflexivity || (simpl; lia).
Defined.

(** X5. On packed buffers that do not overlap, with positive extents and no
    mirrored dimension of extent 1 above dimension 0, a run over the whole
    index space leaves at every output coordinate the conjugate of the
    input at the mirrored coordinate, and changes nothing outside the
    output. *)
Theorem packed_fill_result {T : Type} (neg : T -> T)
    (ms : list bool) (ss : list Z) (in0 out0 : Z) (h : heap) :
  length ms = length ss -> (1 <= length ss)%nat ->
  sizes_positive ss (length ss) 0 = true ->
  mirrored_extents_ok ms ss (length ss - 1) 1 = true ->
  let numel := prod_intlist ss in
  in0 + numel <= out0 \/ out0 + numel <= in0 ->
  exists h',
    slice neg ms ss (packed_strides 1 ss) (packed_strides 1 ss)
          (mkRange 0 numel) in0 out0 h = Some h'
    /\ (forall c, in_bounds c ss ->
          mem h' (out0 + ravel ss c)
          = conj neg (mem h (in0 + ravel ss (mirror ms ss c))))
    /\ (forall a, ~ (out0 <= a < out0 + numel) -> mem h' a = mem h a).
Proof.
  intros Hm Hnd Hpos Hok numel Hdisjoint.
  pose proof (sizes_positive_Forall ss Hpos) as HF.
  destruct (packed_destinations ms ss in0 out0 HF Hm) as [Hdup Hrange].
  exists (exec neg (packed_writes ms ss in0 out0) h).
  split; [now apply packed_trace |]. split.
  - intros c Hc.
    pose proof (mirror_in_bounds ms ss c Hm Hc) as Hc'.
    pose proof (ravel_bounds ss _ Hc') as Hk.
    set (k := ravel ss (mirror ms ss c)) in *.
    assert ((out0 + ravel ss c, in0 + k) ∈ packed_writes ms ss in0 out0) as Hin.
    { unfold packed_writes. apply list_elem_of_fmap. exists k. split.
      - unfold k. rewrite unravel_ravel, mirror_involutive by assumption. reflexivity.
      - apply elem_of_seqZ. lia. }
    apply (exec_mem_written neg _ h _ Hdup) in Hin; [exact Hin |].
    apply Forall_forall. intros w Hw Hdst.
    rewrite Forall_forall in Hrange. specialize (Hrange _ Hdst).
    unfold packed_writes in Hw. apply list_elem_of_fmap in Hw as (j & -> & Hj).
    apply elem_of_seqZ in Hj. simpl in Hrange. fold numel in Hj, Hrange. lia.
  - intros a Ha. apply exec_mem_other. intros Hin.
    rewrite Forall_forall in Hrange. specialize (Hrange _ Hin). fold numel in Hrange. lia.
Qed.

Lemma packed_fill_result_witness :
  exists h',
    slice Z.opp [false; true] [2; 3] (packed_strides 1 [2; 3]) (packed_strides 1 [2; 3])
          (mkRange 0 6) 0 10 (Examples.fresh Examples.four_values) = Some h'
    /\ mem h' (10 + ravel [2; 3] [1; 2]) = Complex 4 (-4).
Proof.
  destruct (packed_fill_result Z.opp [false; true] [2; 3] 0 10
              (Examples.fresh Examples.four_values))
    as (h' & E & Hw & _); try reflexivity; try (simpl; lia).
  exists h'. split; [exact E |].
  apply (Hw [1; 2]). repeat constructor; lia.
Defined.

(** ** The start of a slice *)

(** X6. For a packed input with positive extents, the code that moves the
    cursor to the start of a slice returns, and leaves the input pointer,
    advanced by the column index, on the element number [begin]. *)
Theorem seek_lands_on_begin (ms : list bool) (ss os : list Z) (in0 out0 : Z)
    (range : Range) :
  length ms = length ss -> length os = length ss -> (1 <= length ss)%nat ->
  sizes_positive ss (length ss) 0 = true ->
  0 <= range_begin range < prod_intlist ss ->
  exists cu,
    seek ms ss (packed_strides 1 ss) os range
         (Cursor (replicate (length ss) 0) in0 out0) = Some cu
    /\ in_ptr cu + at_ (iter_index cu) 0 * at_ (packed_strides 1 ss) 0
       = in0 + range_begin range.
Proof.
  intros Hm Ho Hnd Hpos Hb.
  pose proof (sizes_positive_Forall ss Hpos) as HF.
  destruct ss as [|s0 ss']; [simpl in Hnd; lia |].
  destruct (sizes_positive_tail (s0 :: ss') (length ss') eq_refl Hpos) as [Hs0 Hrows].
  destruct (seek_at ms (s0 :: ss') (packed_strides 1 (s0 :: ss')) os Hrows
              in0 out0 range Hnd Hs0 ltac:(lia)) as (cu & E & Hidx & Hin & _).
  exists cu. split; [exact E |]. rewrite Hidx, Hin.
  rewrite (in_offset_dot ms (s0 :: ss') (packed_strides 1 (s0 :: ss')) os)
    by (rewrite ?length_packed_strides; simpl in *; lia).
  change (at_ (s0 :: ss') 0) with s0 in *.
  simpl drop. simpl packed_strides. rewrite !drop_0.
  apply Forall_cons in HF as [_ HF'].
  simpl in Hb. fold (prod_intlist ss') in Hb.
  rewrite dot_packed by (apply in_bounds_length, unravel_in_bounds; exact HF').
  rewrite ravel_unravel.
  - unfold at_. simpl.
    pose proof (Z.div_mod (range_begin range) s0 ltac:(lia)). lia.
  - exact HF'.
  - split; [apply Z.div_pos; lia |]. apply Z.div_lt_upper_bound; lia.
Qed.

Lemma seek_lands_on_begin_witness :
  exists cu,
    seek [false; true] [2; 3] (packed_strides 1 [2; 3]) [1; 2] (mkRange 3 6)
         (Cursor (replicate 2 0) 100 200) = Some cu
    /\ in_ptr cu + at_ (iter_index cu) 0 * at_ (packed_strides 1 [2; 3]) 0 = 100 + 3.
Proof.
  apply (seek_lands_on_begin [false; true] [2; 3] [1; 2] 100 200 (mkRange 3 6));
    reflexivity || (simpl; lia).
Defined.


(** ** The driver *)

Lemma at_element_strides (es : Z) (bytes : list Z) (i : nat) :
  (i < length bytes)%nat ->
  element_strides es bytes !! i = Some (Z.quot (at_ bytes i) es).
Proof.
  intros H. unfold element_strides. rewrite list_lookup_fmap.
  destruct (lookup_lt_is_Some_2 bytes i H) as [x Hx].
  unfold at_. now rewrite Hx.
Qed.

Lemma whole_elements_at (es : Z) (bytes : list Z) (i : nat) :
  whole_elements es bytes = true -> (i < length bytes)%nat ->
  (Z.rem (at_ bytes i) es =? 0) = true.
Proof.
  intros H Hi. unfold whole_elements in H. rewrite forallb_forall in H.
  destruct (lookup_lt_is_Some_2 bytes i Hi) as [x Hx].
  unfold at_. rewrite Hx. simpl. apply H.
  apply list_elem_of_In. eapply list_elem_of_lookup_2. exact Hx.
Qed.

Lemma strides_to_elements_whole (es : Z) (inb outb : list Z) (n : nat) :
  forall i ins outs,
  whole_elements es inb = true -> whole_elements es outb = true ->
  length inb = (i + n)%nat -> length outb = (i + n)%nat ->
  length ins = (i + n)%nat -> length outs = (i + n)%nat ->
  strides_to_elements es inb outb n i ins outs
  = inr (take i ins ++ drop i (element_strides es inb),
         take i outs ++ drop i (element_strides es outb)).
Proof.
  induction n as [|n IH]; intros i ins outs Hin Hout Li Lo Lins Louts.
  - simpl. rewrite !take_ge by lia.
    rewrite !drop_ge by (unfold element_strides; rewrite length_map; lia).
    now rewrite !app_nil_r.
  - cbn [strides_to_elements].
    rewrite (whole_elements_at es inb i Hin) by lia.
    rewrite (whole_elements_at es outb i Hout) by lia. simpl.
    rewrite IH by (rewrite ?length_insert; assumption || lia).
    rewrite !take_S_insert by lia.
    rewrite (drop_S (element_strides es inb) (Z.quot (at_ inb i) es) i)
      by (apply at_element_strides; lia).
    rewrite (drop_S (element_strides es outb) (Z.quot (at_ outb i) es) i)
      by (apply at_element_strides; lia).
    now rewrite <- !app_assoc.
Qed.

Lemma strides_to_elements_partial (es : Z) (inb outb : list Z) (n : nat) :
  forall i ins outs,
  whole_elements es (drop i inb) && whole_elements es (drop i outb) = false ->
  length inb = (i + n)%nat -> length outb = (i + n)%nat ->
  strides_to_elements es inb outb n i ins outs = inl InternalAssertFailed.
Proof.
  induction n as [|n IH]; intros i ins outs H Li Lo.
  - rewrite !drop_ge in H by lia. discriminate.
  - cbn [strides_to_elements].
    rewrite (drop_at inb i), (drop_at outb i) in H by lia.
    unfold whole_elements in H. simpl in H.
    destruct (Z.rem (at_ inb i) es =? 0); simpl in *; [| reflexivity].
    destruct (Z.rem (at_ outb i) es =? 0); simpl in *; [| reflexivity].
    apply IH; [exact H | lia | lia].
Qed.

Lemma fold_mask_lookup (dims : list Z) : forall (mask : list bool) (i : nat),
  dims_in_range (length mask) dims = true ->
  fold_left (fun mask dim => <[Z.to_nat dim := true]> mask) dims mask !! i
  = (fun b => b || existsb (fun d => d =? Z.of_nat i) dims) <$> mask !! i.
Proof.
  induction dims as [|d dims IH]; intros mask i H; simpl.
  - destruct (mask !! i); simpl; [now rewrite orb_false_r | reflexivity].
  - simpl in H. apply andb_prop in H as [Hd H]. apply andb_prop in Hd as [Hd0 Hd1].
    apply Z.leb_le in Hd0. apply Z.ltb_lt in Hd1.
    rewrite IH by now rewrite length_insert.
    destruct (Nat.eq_dec (Z.to_nat d) i) as [<-|Hne].
    + rewrite list_lookup_insert_eq by lia.
      destruct (lookup_lt_is_Some_2 mask (Z.to_nat d) ltac:(lia)) as [b Hb].
      rewrite Hb. simpl. rewrite Z2Nat.id by lia. rewrite Z.eqb_refl.
      now rewrite orb_true_r.
    + rewrite list_lookup_insert_ne by exact Hne.
      destruct (Z.eqb_spec d (Z.of_nat i)) as [E|_]; [lia | reflexivity].
Qed.

(** The loop that builds the mask flags exactly the listed dimensions. *)
Lemma mirror_mask_spec (ndim : nat) (mirror_dims : list Z) :
  dims_in_range ndim mirror_dims = true ->
  mirror_mask ndim mirror_dims = mask_of ndim mirror_dims.
Proof.
  intros H. apply list_eq. intros i. unfold mirror_mask.
  rewrite fold_mask_lookup by now rewrite length_replicate.
  unfold mask_of. rewrite list_lookup_fmap.
  destruct (Nat.lt_ge_cases i ndim) as [Hi|Hi].
  - rewrite lookup_replicate_2 by exact Hi.
    rewrite lookup_seq_lt by exact Hi. reflexivity.
  - rewrite (proj1 (lookup_replicate_None _ _ _)) by exact Hi.
    rewrite lookup_seq_ge by exact Hi. reflexivity.
Qed.

(** X7. The mask the driver builds from [mirror_dims] flags a dimension exactly
    when the dimension is listed, whatever the order of the list and however
    often a dimension is repeated in it. *)
Theorem mask_flags_listed_dims (ndim : nat) (mirror_dims : list Z) (i : nat) :
  dims_in_range ndim mirror_dims = true ->
  (i < ndim)%nat ->
  flag (mirror_mask ndim mirror_dims) i = true <-> In (Z.of_nat i) mirror_dims.
Proof.
  intros Hdims Hi. rewrite mirror_mask_spec by exact Hdims.
  unfold flag, mask_of. rewrite list_lookup_fmap, lookup_seq_lt by exact Hi.
  simpl. rewrite existsb_exists. split.
  - intros (d & Hd & E). apply Z.eqb_eq in E. now subst d.
  - intros Hin. exists (Z.of_nat i). split; [exact Hin | apply Z.eqb_refl].
Qed.

Lemma mask_flags_listed_dims_witness :
  flag (mirror_mask 3 [2; 0; 2]) 2 = true <-> In 2 [2; 0; 2].
Proof.
  apply (mask_flags_listed_dims 3 [2; 0; 2] 2); [reflexivity | lia].
Defined.

Section Driver.

Context {T : Type} (neg : T -> T).
Variable itemsize : ScalarType -> Z.
Variable parallel_for : Z -> Z -> list Range.

Local Abbreviation driver :=
  (_fft_fill_with_conjugate_symmetry_cpu_ neg itemsize parallel_for).

(** X8. For a complex element type, byte strides that are whole numbers of
    elements and mirrored dimensions of extent 2 or more, the driver makes
    the assignments of the whole index space with the strides counted in
    elements, whatever exact partition the scheduler hands out. *)
Theorem driver_fills (dtype : ScalarType) (mirror_dims ss inb outb : list Z)
    (in_data out_data : Z) (h : heap (T:=T)) :
  dtype = ComplexFloat \/ dtype = ComplexDouble ->
  length inb = length ss -> length outb = length ss -> (1 <= length ss)%nat ->
  whole_elements (itemsize dtype) inb = true ->
  whole_elements (itemsize dtype) outb = true ->
  dims_in_range (length ss) mirror_dims = true ->
  sizes_positive ss (length ss) 0 = true ->
  mirrored_extents_ok (mask_of (length ss) mirror_dims) ss (length ss - 1) 1 = true ->
  partitions 0 (prod_intlist ss) (parallel_for 0 (prod_intlist ss)) ->
  driver dtype mirror_dims ss inb in_data outb out_data h
  = Some (inr (exec neg
                 (map (write_of (mask_of (length ss) mirror_dims) ss
                                (element_strides (itemsize dtype) inb)
                                (element_strides (itemsize dtype) outb)
                                in_data out_data)
                      (seqZ 0 (prod_intlist ss)))
                 h)).
Proof.
  intros Hty Li Lo Hnd Hin Hout Hdims Hpos Hok Hpart.
  unfold _fft_fill_with_conjugate_symmetry_cpu_.
  rewrite (strides_to_elements_whole _ inb outb (length ss) 0)
    by (rewrite ?length_replicate; assumption || lia).
  simpl take. rewrite !drop_0. simpl app.
  rewrite mirror_mask_spec by exact Hdims.
  destruct (length ss) as [|n] eqn:En; [lia |].
  destruct (sizes_positive_tail ss n En ltac:(now rewrite En)) as [Hs0 Hrows].
  rewrite <- En in *.
  assert (length (mask_of (length ss) mirror_dims) = length ss) as Lm
    by (unfold mask_of; now rewrite length_map, length_seq).
  rewrite (run_chunks_trace neg _ ss _ _ in_data out_data Hnd Hs0 Hrows Hok
             _ 0 (prod_intlist ss) h ltac:(lia) Hpart).
  rewrite Z.sub_0_r.
  assert (map (wr (mask_of (length ss) mirror_dims) ss
                  (element_strides (itemsize dtype) inb)
                  (element_strides (itemsize dtype) outb) in_data out_data)
              (seqZ 0 (prod_intlist ss))
          = map (write_of (mask_of (length ss) mirror_dims) ss
                   (element_strides (itemsize dtype) inb)
                   (element_strides (itemsize dtype) outb) in_data out_data)
                (seqZ 0 (prod_intlist ss))) as ->.
  { apply map_ext. intros k. apply wr_write_of;
      unfold element_strides; rewrite ?length_map; assumption. }
  destruct Hty as [-> | ->]; reflexivity.
Qed.

(** X9. A byte stride that is not a whole number of elements stops the driver
    with the internal assertion, whatever the element type, before anything
    is written. *)
Theorem driver_rejects_partial_strides (dtype : ScalarType)
    (mirror_dims ss inb outb : list Z) (in_data out_data : Z) (h : heap (T:=T)) :
  length inb = length ss -> length outb = length ss ->
  whole_elements (itemsize dtype) inb && whole_elements (itemsize dtype) outb = false ->
  driver dtype mirror_dims ss inb in_data outb out_data h
  = Some (inl InternalAssertFailed).
Proof.
  intros Li Lo H. unfold _fft_fill_with_conjugate_symmetry_cpu_.
  rewrite (strides_to_elements_partial _ inb outb (length ss) 0)
    by (rewrite ?drop_0; assumption || lia).
  reflexivity.
Qed.

(** X10. With strides that are whole numbers of elements, an element type that
    is not complex stops the driver before any slice is run. *)
Theorem driver_rejects_real_types (dtype : ScalarType)
    (mirror_dims ss inb outb : list Z) (in_data out_data : Z) (h : heap (T:=T)) :
  dtype <> ComplexFloat -> dtype <> ComplexDouble ->
  length inb = length ss -> length outb = length ss ->
  whole_elements (itemsize dtype) inb = true ->
  whole_elements (itemsize dtype) outb = true ->
  driver dtype mirror_dims ss inb in_data outb out_data h
  = Some (inl (NotImplementedFor dtype)).
Proof.
  intros Hf Hd Li Lo Hin Hout. unfold _fft_fill_with_conjugate_symmetry_cpu_.
  rewrite (strides_to_elements_whole _ inb outb (length ss) 0)
    by (rewrite ?length_replicate; assumption || lia).
  destruct dtype; try reflexivity; contradiction.
Qed.

End Driver.

Lemma driver_fills_witness :
  _fft_fill_with_conjugate_symmetry_cpu_ Z.opp Examples.itemsize
    (fun b e => [mkRange b 1; mkRange 1 e])
    ComplexDouble [1] [2; 2] [16; 32] 0 [16; 32] 10 (Examples.fresh Examples.four_values)
  = Some (inr (exec Z.opp
                 (map (write_of (mask_of 2 [1]) [2; 2] [1; 2] [1; 2] 0 10) (seqZ 0 4))
                 (Examples.fresh Examples.four_values))).
Proof.
  apply (driver_fills Z.opp Examples.itemsize (fun b e => [mkRange b 1; mkRange 1 e])
           ComplexDouble [1] [2; 2] [16; 32] [16; 32] 0 10);
    first [reflexivity | right; reflexivity | simpl; lia].
Defined.

Lemma driver_rejects_partial_strides_witness :
  _fft_fill_with_conjugate_symmetry_cpu_ Z.opp Examples.itemsize
    (fun b e => [mkRange b e])
    ComplexDouble [] [2; 2] [16; 24] 0 [16; 32] 10 (Examples.fresh Examples.four_values)
  = Some (inl InternalAssertFailed).
Proof.
  apply (driver_rejects_partial_strides Z.opp Examples.itemsize (fun b e => [mkRange b e])
           ComplexDouble [] [2; 2] [16; 24] [16; 32] 0 10); reflexivity.
Defined.

Lemma driver_rejects_real_types_witness :
  _fft_fill_with_conjugate_symmetry_cpu_ Z.opp Examples.itemsize
    (fun b e => [mkRange b e])
    Double [] [2; 2] [8; 16] 0 [8; 16] 10 (Examples.fresh Examples.four_values)
  = Some (inl (NotImplementedFor Double)).
Proof.
  apply (driver_rejects_real_types Z.opp Examples.itemsize (fun b e => [mkRange b e])
           Double [] [2; 2] [8; 16] [8; 16] 0 10); reflexivity || discriminate.
Defined.

(** ** Partitions *)

Lemma partition_independent_witness :
  run_chunks Z.opp [false; true] [2; 3] [1; 2] [1; 2]
             [mkRange 0 1; mkRange 1 4; mkRange 4 6] 0 10
             (Examples.fresh Examples.four_values)
  = slice Z.opp [false; true] [2; 3] [1; 2] [1; 2] (mkRange 0 (prod_intlist [2; 3])) 0 10
          (Examples.fresh Examples.four_values).
Proof.
  apply (FillProperties.partition_independent Z.opp [false; true] [2; 3] [1; 2] [1; 2]
           0 10 [mkRange 0 1; mkRange 1 4; mkRange 4 6]);
    try reflexivity; simpl; lia.
Defined.

End FillTheory.

(** * The transform configurator: outcomes *)

Module MklTheory.
Import Mkl MklFacts MklExamples Outcome.

(** ** Errors *)

Lemma raises_ret {A : Type} E (a : A) : raises_only E (ret a).
Proof. intros log e log' H. discriminate H. Qed.

Lemma raises_throw {A : Type} (E : error -> list event -> Prop) (e : error) :
  (forall log, E e log) -> raises_only E (throw (A:=A) e).
Proof. intros HE log e' log' H. inversion H; subst. apply HE. Qed.

Lemma raises_emit E (ev : event) : raises_only E (emit ev).
Proof. intros log e log' H. discriminate H. Qed.

Lemma raises_bind {A B : Type} E (m : M A) (k : A -> M B) :
  raises_only E m -> (forall a, raises_only E (k a)) -> raises_only E (bind m k).
Proof.
  intros Hm Hk log e log' H. unfold bind in H.
  destruct (m log) as [[e1|a] log1] eqn:E1.
  - inversion H; subst. eapply Hm. exact E1.
  - eapply Hk. exact H.
Qed.

Lemma raises_when E (cond : bool) (m : M unit) :
  raises_only E m -> raises_only E (when cond m).
Proof. intros H. destruct cond; [exact H | apply raises_ret]. Qed.

Lemma raises_align E self signal_ndim ci :
  raises_only E (align_complex_input self signal_ndim ci).
Proof.
  intros log e log' H. rewrite align_complex_input_spec in H.
  destruct (_ && _); discriminate H.
Qed.

Lemma raises_select_precision (E : error -> list event -> Prop) input :
  (forall t log, E (UnsupportedType t) log) -> raises_only E (select_precision input).
Proof.
  intros HE. unfold select_precision.
  destruct (scalar_type input); (apply raises_ret || (apply raises_throw; apply HE)).
Qed.

Section Engine.

Variable MKL_LONG_is_narrow : bool.
Variable MKL_LONG_MAX : Z.
Variable fft_norm_mode_none : Z.
Variable fft_norm_mode_by_root_n : Z.
Variable dfti_status : list event -> dfti_call -> bool.

Lemma raises_preflight (E : error -> list event -> Prop) input signal_ndim ci osz :
  (forall log, E SizeExceeded log) ->
  raises_only E (preflight MKL_LONG_is_narrow MKL_LONG_MAX input signal_ndim ci osz).
Proof.
  intros HE log e log' H.
  destruct (preflight_outcome MKL_LONG_is_narrow MKL_LONG_MAX input signal_ndim ci osz log)
    as [E1|E1]; rewrite E1 in H; inversion H; subst. apply HE.
Qed.

Lemma raises_dfti (E : error -> list event -> Prop) (c : dfti_call) :
  (forall log, dfti_status log c = false -> E (EngineError c) (log ++ [EvDfti c])) ->
  raises_only E (MKL_DFTI_CHECK dfti_status c).
Proof.
  intros HE log e log' H. unfold MKL_DFTI_CHECK in H.
  destruct (dfti_status log c) eqn:Es; inversion H; subst. now apply HE.
Qed.

End Engine.

Lemma raises_preflight_wide E MKL_LONG_MAX input signal_ndim ci osz :
  raises_only E (preflight false MKL_LONG_MAX input signal_ndim ci osz).
Proof. unfold preflight, when. apply raises_ret. Qed.

Ltac raises_auto side :=
  repeat first
    [ apply raises_ret
    | apply raises_emit
    | apply raises_align
    | apply raises_preflight; side
    | apply raises_select_precision; side
    | apply raises_dfti; side
    | apply raises_throw; side
    | apply raises_when
    | apply raises_bind; [| intros ?]
    | match goal with |- raises_only _ (if ?c then _ else _) => destruct c end ].




(** X12. When the engine's index type is as wide as [int64_t], no request fails
    with the size-exceeded error. *)
Theorem wide_engine_never_exceeds
    (MKL_LONG_MAX none by_root_n : Z)
    (dfti_status : list event -> dfti_call -> bool)
    (self : Tensor) (signal_ndim : Z) (complex_input complex_output inverse : bool)
    (checked_signal_sizes : list Z) (normalization : Z) (onesided : bool)
    (output_sizes : list Z) :
  fst (_fft_mkl false MKL_LONG_MAX none by_root_n dfti_status self signal_ndim
                complex_input complex_output inverse checked_signal_sizes normalization
                onesided output_sizes [])
  <> inl SizeExceeded.
Proof.
  intros Hrun.
  destruct (_fft_mkl _ _ _ _ _ _ _ _ _ _ _ _ _ _ _) as [r log] eqn:Erun.
  simpl in Hrun. subst r.
  assert (raises_only (fun e _ => e <> SizeExceeded)
            (_fft_mkl false MKL_LONG_MAX none by_root_n dfti_status self signal_ndim
               complex_input complex_output inverse checked_signal_sizes normalization
               onesided output_sizes)) as H.
  { unfold _fft_mkl, rescale, fill_other_half.
    apply raises_bind; [apply raises_align | intros input].
    apply raises_bind; [apply raises_preflight_wide | intros _].
    raises_auto ltac:(intros; discriminate). }
  exact (H _ _ _ Erun eq_refl).
Qed.

(** X13. The size-exceeded error is raised before the output is allocated and
    before any call to the engine: at that point the run has done nothing
    but the contiguous copy of a complex input that needed one. *)
Theorem size_error_precedes_allocation
    (narrow : bool) (MKL_LONG_MAX none by_root_n : Z)
    (dfti_status : list event -> dfti_call -> bool)
    (self : Tensor) (signal_ndim : Z) (complex_input complex_output inverse : bool)
    (checked_signal_sizes : list Z) (normalization : Z) (onesided : bool)
    (output_sizes : list Z) :
  let run :=
    _fft_mkl narrow MKL_LONG_MAX none by_root_n dfti_status self signal_ndim
             complex_input complex_output inverse checked_signal_sizes normalization
             onesided output_sizes [] in
  fst run = inl SizeExceeded ->
  snd run = if complex_input && needs_alignment self signal_ndim
            then [EvContiguous self] else [].
Proof.
  intros run. subst run.
  match goal with |- context [snd ?x] => destruct x as [r log] eqn:Erun end.
  simpl. intros ->.
  unfold _fft_mkl in Erun. unfold bind at 1 in Erun.
  rewrite align_complex_input_spec in Erun.
  destruct (complex_input && needs_alignment self signal_ndim);
    cbv beta iota in Erun; unfold bind at 1 in Erun;
    match type of Erun with
    | context [preflight narrow MKL_LONG_MAX ?i ?n ?c ?o ?l] =>
      destruct (preflight_outcome narrow MKL_LONG_MAX i n c o l) as [E|E];
        rewrite E in Erun; cbv beta iota in Erun
    end;
    try (inversion Erun; reflexivity);
    exfalso;
    match type of Erun with
    | ?m ?l = _ =>
      assert (raises_only (fun e _ => e <> SizeExceeded) m) as H
        by (unfold rescale, fill_other_half; raises_auto ltac:(intros; discriminate));
      exact (H _ _ _ Erun eq_refl)
    end.
Qed.

Lemma size_error_precedes_allocation_witness :
  let run := fft_narrow oversized_int_input 1 false true false [2147483648] 0 true
                        [1; 1073741825; 2] [] in
  fst run = inl SizeExceeded /\ snd run = [].
Proof.
  split; [reflexivity |].
  apply (size_error_precedes_allocation true 2147483647 0 1 accept_all
           oversized_int_input 1 false true false [2147483648] 0 true [1; 1073741825; 2]).
  reflexivity.
Defined.

(** X14. For a real input no contiguous copy is ever requested, whatever its
    strides and whatever the outcome of the run. *)
Theorem real_input_is_never_copied
    (narrow : bool) (MKL_LONG_MAX none by_root_n : Z)
    (dfti_status : list event -> dfti_call -> bool)
    (self : Tensor) (signal_ndim : Z) (complex_output inverse : bool)
    (checked_signal_sizes : list Z) (normalization : Z) (onesided : bool)
    (output_sizes : list Z) :
  Forall (fun ev => is_contiguous_event ev = false)
    (snd (_fft_mkl narrow MKL_LONG_MAX none by_root_n dfti_status self signal_ndim
                   false complex_output inverse checked_signal_sizes normalization
                   onesided output_sizes [])).
Proof.
  assert (emits (fun ev => is_contiguous_event ev = false)
            (_fft_mkl narrow MKL_LONG_MAX none by_root_n dfti_status self signal_ndim
               false complex_output inverse checked_signal_sizes normalization
               onesided output_sizes)) as H.
  { unfold _fft_mkl, align_complex_input, rescale, fill_other_half.
    MklProperties.emits_auto. }
  destruct (H []) as (evs & E & F). rewrite E. exact F.
Qed.


(** ** Runs that return *)

(** X15. A run returns only for single- or double-precision elements, and what it
    returns is a contiguous buffer of the requested extents with the element
    type of the input. *)
Theorem returned_output_layout
    (narrow : bool) (MKL_LONG_MAX none by_root_n : Z)
    (dfti_status : list event -> dfti_call -> bool)
    (self : Tensor) (signal_ndim : Z) (complex_input complex_output inverse : bool)
    (checked_signal_sizes : list Z) (normalization : Z) (onesided : bool)
    (output_sizes : list Z) (output : Tensor) :
  fst (_fft_mkl narrow MKL_LONG_MAX none by_root_n dfti_status self signal_ndim
                complex_input complex_output inverse checked_signal_sizes normalization
                onesided output_sizes [])
  = inr output ->
  (scalar_type self = Float \/ scalar_type self = Double)
  /\ sizes output = output_sizes
  /\ strides output = contiguous_strides output_sizes
  /\ scalar_type output = scalar_type self.
Proof.
  intros Hrun.
  destruct (_fft_mkl _ _ _ _ _ _ _ _ _ _ _ _ _ _ _) as [r log] eqn:Erun.
  simpl in Hrun. subst r.
  apply completed_run in Erun. destruct Erun as (-> & Hty & _).
  simpl. auto.
Qed.

Lemma returned_output_layout_witness :
  (scalar_type real_input = Float \/ scalar_type real_input = Double)
  /\ sizes (empty_layout [2; 5; 2] Float) = [2; 5; 2]
  /\ strides (empty_layout [2; 5; 2] Float) = contiguous_strides [2; 5; 2]
  /\ scalar_type (empty_layout [2; 5; 2] Float) = scalar_type real_input.
Proof.
  apply (returned_output_layout false 9223372036854775807 0 1 accept_all
           real_input 1 false true false [8] 0 true [2; 5; 2]).
  reflexivity.
Defined.

(** X16. A request of a supported element type returns when the engine accepts
    every call and the preflight has nothing to object to: the engine is
    wide, or the extents lie in [1 .. MKL_LONG_MAX] and the element counts
    of the input and of the output do not exceed [MKL_LONG_MAX]. The events
    of the run are then those of [completed_events]. *)
Theorem accepted_request_returns
    (narrow : bool) (MKL_LONG_MAX none by_root_n : Z)
    (dfti_status : list event -> dfti_call -> bool)
    (self : Tensor) (signal_ndim : Z) (complex_input complex_output inverse : bool)
    (checked_signal_sizes : list Z) (normalization : Z) (onesided : bool)
    (output_sizes : list Z) :
  scalar_type self = Float \/ scalar_type self = Double ->
  (forall log c, dfti_status log c = true) ->
  narrow = false
  \/ (extents_within MKL_LONG_MAX (sizes self) (Z.to_nat (signal_ndim + 1)) = true
      /\ extents_within MKL_LONG_MAX output_sizes (Z.to_nat (signal_ndim + 1)) = true
      /\ extent_product (sizes self) (Z.to_nat (signal_ndim + 1)) <= MKL_LONG_MAX
      /\ extent_product output_sizes (Z.to_nat (signal_ndim + 1)) <= MKL_LONG_MAX) ->
  _fft_mkl narrow MKL_LONG_MAX none by_root_n dfti_status self signal_ndim
           complex_input complex_output inverse checked_signal_sizes normalization
           onesided output_sizes []
  = (inr (empty_layout output_sizes (scalar_type self)),
     completed_events narrow MKL_LONG_MAX none by_root_n self signal_ndim
       complex_input complex_output inverse checked_signal_sizes normalization
       onesided output_sizes).
Proof.
  intros Hty Hok Hpre.
  assert (forall input log, sizes input = sizes self ->
            preflight narrow MKL_LONG_MAX input signal_ndim complex_input output_sizes log
            = (inr tt, log)) as Hpass.
  { intros input log Hs. destruct Hpre as [-> | (H1 & H2 & H3 & H4)].
    - reflexivity.
    - apply preflight_accepts; rewrite ?Hs; assumption. }
  unfold _fft_mkl, completed_events. unfold bind at 1.
  rewrite align_complex_input_spec.
  destruct (complex_input && needs_alignment self signal_ndim); cbv beta iota;
    unfold bind at 1; rewrite Hpass by reflexivity; cbv beta iota;
    unfold bind, emit, select_precision, when, rescale, fill_other_half,
      MKL_DFTI_CHECK, ret;
    cbn [scalar_type contiguous_layout];
    destruct Hty as [-> | ->];
    destruct (negb complex_input || negb complex_output);
    destruct (negb (normalization =? none));
    destruct (negb inverse);
    destruct (negb complex_input && complex_output && negb onesided);
    simpl; repeat (rewrite Hok; simpl);
    rewrite <- ?app_assoc; reflexivity.
Qed.

Lemma accepted_request_returns_witness :
  fft_narrow real_input 1 false true false [8] 0 true [2; 5; 2] []
  = (inr (empty_layout [2; 5; 2] Float),
     completed_events true 2147483647 0 1 real_input 1 false true false [8] 0 true
       [2; 5; 2]).
Proof.
  apply (accepted_request_returns true 2147483647 0 1 accept_all
           real_input 1 false true false [8] 0 true [2; 5; 2]).
  - left. reflexivity.
  - reflexivity.
  - right. repeat split; first [reflexivity | vm_compute; discriminate].
Defined.


Ltac completed_cases self complex_input complex_output inverse normalization none onesided
                     signal_ndim Hty :=
  unfold completed_events, engine_input; simpl;
  destruct (complex_input && needs_alignment self signal_ndim);
  destruct complex_input, complex_output, inverse, onesided;
  destruct (normalization =? none);
  destruct Hty as [-> | ->]; simpl; auto.

(** X17. In a run that returns, the descriptor is created once, before any other
    call to the engine: single precision for [Float] and double precision
    for [Double], over the complex domain exactly when the input of a
    forward transform, or the output of an inverse one, is complex. *)
Theorem descriptor_is_created_first
    (narrow : bool) (MKL_LONG_MAX none by_root_n : Z)
    (dfti_status : list event -> dfti_call -> bool)
    (self : Tensor) (signal_ndim : Z) (complex_input complex_output inverse : bool)
    (checked_signal_sizes : list Z) (normalization : Z) (onesided : bool)
    (output_sizes : list Z) (output : Tensor) :
  let run :=
    _fft_mkl narrow MKL_LONG_MAX none by_root_n dfti_status self signal_ndim
             complex_input complex_output inverse checked_signal_sizes normalization
             onesided output_sizes [] in
  fst run = inr output ->
  let init :=
    EvDfti (DescriptorInit
              (match scalar_type self with Double => DFTI_DOUBLE | _ => DFTI_SINGLE end)
              (if (if inverse then complex_output else complex_input)
               then DFTI_COMPLEX else DFTI_REAL)
              signal_ndim
              (map (to_MKL_LONG narrow MKL_LONG_MAX) checked_signal_sizes)) in
  head (List.filter is_engine_event (snd run)) = Some init
  /\ List.filter is_descriptor_event (snd run) = [init].
Proof.
  intros run Hrun.
  destruct run as [res log] eqn:Erun. simpl in Hrun. subst res.
  apply completed_run in Erun. destruct Erun as (_ & Hty & ->).
  completed_cases self complex_input complex_output inverse normalization none onesided
                  signal_ndim Hty.
Qed.

Lemma descriptor_is_created_first_witness :
  let run := fft_wide real_input 1 false true false [8] 0 true [2; 5; 2] [] in
  let init := EvDfti (DescriptorInit DFTI_SINGLE DFTI_REAL 1 [8]) in
  head (List.filter is_engine_event (snd run)) = Some init
  /\ List.filter is_descriptor_event (snd run) = [init].
Proof.
  apply (descriptor_is_created_first false 9223372036854775807 0 1 accept_all
           real_input 1 false true false [8] 0 true [2; 5; 2]
           (empty_layout [2; 5; 2] Float)).
  reflexivity.
Defined.




(** X19. In a run that returns, the conjugate-even storage convention is set,
    once, exactly when the input or the output is real. *)
Theorem storage_convention_iff_real_side
    (narrow : bool) (MKL_LONG_MAX none by_root_n : Z)
    (dfti_status : list event -> dfti_call -> bool)
    (self : Tensor) (signal_ndim : Z) (complex_input complex_output inverse : bool)
    (checked_signal_sizes : list Z) (normalization : Z) (onesided : bool)
    (output_sizes : list Z) (output : Tensor) :
  let run :=
    _fft_mkl narrow MKL_LONG_MAX none by_root_n dfti_status self signal_ndim
             complex_input complex_output inverse checked_signal_sizes normalization
             onesided output_sizes [] in
  fst run = inr output ->
  List.filter is_storage_event (snd run)
  = if complex_input && complex_output then []
    else [EvDfti (DftiSetValue DFTI_CONJUGATE_EVEN_STORAGE
                               (ArgValue DFTI_COMPLEX_COMPLEX))].
Proof.
  intros run Hrun.
  destruct run as [res log] eqn:Erun. simpl in Hrun. subst res.
  apply completed_run in Erun. destruct Erun as (_ & Hty & ->).
  completed_cases self complex_input complex_output inverse normalization none onesided
                  signal_ndim Hty.
Qed.

Lemma storage_convention_iff_real_side_witness :
  List.filter is_storage_event
    (snd (fft_wide odd_batch_stride_input 1 true true false [4] 0 true [2; 4; 2] []))
  = [].
Proof.
  apply (storage_convention_iff_real_side false 9223372036854775807 0 1 accept_all
           odd_batch_stride_input 1 true true false [4] 0 true [2; 4; 2]
           (empty_layout [2; 4; 2] Double)).
  reflexivity.
Defined.


(** ** The preflight *)

Lemma oversized_extent_is_rejected_witness :
  fst (fft_narrow oversized_int_input 1 false true false [2147483648] 0 true
                  [1; 1073741825; 2] [])
  = inl SizeExceeded.
Proof.
  apply (MklProperties.oversized_extent_is_rejected 2147483647 0 1 accept_all
           oversized_int_input 1 false true false [2147483648] 0 true
           [1; 1073741825; 2] 1).
  - simpl. lia.
  - left. reflexivity.
Defined.

Lemma preflight_accepts_witness :
  preflight true 2147483647 real_input 1 false [2; 5; 2] [] = (inr tt, []).
Proof.
  apply (preflight_accepts true 2147483647 real_input 1 false [2; 5; 2] []);
    first [reflexivity | vm_compute; discriminate].
Defined.

(** X20. When the loop of the preflight lets a request pass, the flag it ends
    with tells whether the flag was set on entry or the stride of one of the
    dimensions visited, counted in the engine's unit, exceeds
    [MKL_LONG_MAX]. *)
Theorem preflight_flag_reports_wide_strides
    (MKL_LONG_MAX : Z) (input : Tensor) (complex_input : bool) (output_sizes : list Z)
    (k : nat) : forall (need : bool) (inumel onumel : Z) (log log' : list event) (b : bool),
  preflight_loop MKL_LONG_MAX input complex_input output_sizes k need inumel onumel log
  = (inr b, log') ->
  b = need || existsb (fun i => engine_stride input complex_input i >? MKL_LONG_MAX)
                      (seq 0 k).
Proof.
  induction k as [|k IH]; intros need inumel onumel log log' b H.
  - simpl in H. inversion H. simpl. now rewrite orb_false_r.
  - cbn [preflight_loop] in H. unfold bind in H.
    destruct ((_ <=? _) && (_ <=? _) && (_ <=? _)); simpl in H; [| discriminate].
    destruct (negb _ || (_ <=? _)); simpl in H; [| discriminate].
    apply IH in H. rewrite H, seq_S, existsb_app. simpl.
    unfold engine_stride.
    destruct need, ((if complex_input then _ else _) >? MKL_LONG_MAX),
      (existsb _ (seq 0 k)); reflexivity.
Qed.

Lemma preflight_flag_reports_wide_strides_witness :
  true = false || existsb (fun i => engine_stride wide_stride_input false i >? 2147483647)
                          (seq 0 2).
Proof.
  apply (preflight_flag_reports_wide_strides 2147483647 wide_stride_input false
           [1; 2; 2] 2 false 1 1 [] []).
  reflexivity.
Defined.

Lemma to_MKL_LONG_in_range (narrow : bool) (MKL_LONG_MAX x : Z) :
  0 <= x <= MKL_LONG_MAX -> to_MKL_LONG narrow MKL_LONG_MAX x = x.
Proof.
  intros H. unfold to_MKL_LONG. destruct narrow; [| reflexivity].
  rewrite Z.mod_small by lia. lia.
Qed.

Lemma existsb_false {A : Type} (f : A -> bool) (l : list A) :
  existsb f l = false -> forall x, In x l -> f x = false.
Proof.
  intros H x Hx. destruct (f x) eqn:E; [| reflexivity].
  assert (existsb f l = true) by (apply existsb_exists; eauto). congruence.
Qed.

(** X21. When the loop of the preflight passes with its flag unset and no stride
    is negative, the strides handed to the engine are the strides of the
    input (halved for a complex input), not wrapped. *)
Theorem unflagged_strides_reach_engine
    (narrow : bool) (MKL_LONG_MAX : Z) (input : Tensor) (complex_input : bool)
    (output_sizes : list Z) (signal_ndim : Z) (log log' : list event) :
  preflight_loop MKL_LONG_MAX input complex_input output_sizes
                 (Z.to_nat (signal_ndim + 1)) false 1 1 log = (inr false, log') ->
  Forall (fun s => 0 <= s) (strides input) ->
  mkl_strides narrow MKL_LONG_MAX complex_input (strides input) signal_ndim
  = 0 :: map (engine_stride input complex_input) (seq 1 (Z.to_nat signal_ndim)).
Proof.
  intros Hloop Hnonneg. apply preflight_flag_reports_wide_strides in Hloop.
  simpl in Hloop. symmetry in Hloop.
  unfold mkl_strides. f_equal. apply map_ext_in. intros i Hi.
  apply in_seq in Hi.
  pose proof (existsb_false _ _ Hloop i ltac:(apply in_seq; lia)) as Hle.
  simpl in Hle. rewrite Z.gtb_ltb in Hle. apply Z.ltb_ge in Hle.
  assert (0 <= at_ (strides input) i) as Hs.
  { unfold at_. destruct (strides input !! i) as [x|] eqn:Ex; simpl; [| lia].
    rewrite Forall_forall in Hnonneg. apply Hnonneg.
    eapply list_elem_of_lookup_2. exact Ex. }
  unfold engine_stride, stride in *.
  apply to_MKL_LONG_in_range. split; [| exact Hle].
  destruct complex_input; [apply Z.shiftr_nonneg |]; exact Hs.
Qed.

Lemma unflagged_strides_reach_engine_witness :
  mkl_strides true 2147483647 true (strides odd_batch_stride_input) 1
  = 0 :: map (engine_stride odd_batch_stride_input true) (seq 1 1).
Proof.
  apply (unflagged_strides_reach_engine true 2147483647 odd_batch_stride_input true
           [2; 4; 2] 1 [] []).
  - reflexivity.
  - repeat constructor; lia.
Defined.

(** ** Row-major strides *)

Lemma prod_intlist_app (a b : list Z) :
  prod_intlist (a ++ b) = prod_intlist a * prod_intlist b.
Proof.
  induction a as [|x a IH]; simpl.
  - fold (prod_intlist b). lia.
  - fold (prod_intlist (a ++ b)) (prod_intlist a). rewrite IH. lia.
Qed.

Lemma at_contiguous_strides (ss : list Z) : forall i,
  (i < length ss)%nat ->
  at_ (contiguous_strides ss) i = prod_intlist (drop (S i) ss).
Proof.
  induction ss as [|s ss IH]; intros i Hi; [simpl in Hi; lia |].
  destruct i as [|i]; [reflexivity |].
  simpl in Hi. specialize (IH i ltac:(lia)). exact IH.
Qed.

(** ** The strides of the output *)

Lemma prod_intlist_nonneg (l : list Z) :
  Forall (fun s => 0 <= s) l -> 0 <= prod_intlist l.
Proof.
  induction 1 as [|x l Hx _ IH]; simpl; [lia |].
  fold (prod_intlist l). lia.
Qed.

(** In a loop of the preflight that passes, the bound checked on [ostride]
    holds for the product of the output extents that follow each dimension
    visited. *)
Lemma preflight_loop_ostride (MKL_LONG_MAX : Z) (input : Tensor) (complex_input : bool)
    (output_sizes : list Z) (k : nat) :
  forall (need : bool) (inumel onumel : Z) (log log' : list event) (b : bool),
  (k <= length output_sizes)%nat ->
  preflight_loop MKL_LONG_MAX input complex_input output_sizes k need inumel onumel log
  = (inr b, log') ->
  forall i, (i < k)%nat ->
    onumel * prod_intlist (take (k - S i) (drop (S i) output_sizes)) <= MKL_LONG_MAX.
Proof.
  induction k as [|k IH]; intros need inumel onumel log log' b Hk H i Hi; [lia |].
  cbn [preflight_loop] in H. unfold bind in H.
  destruct ((_ <=? _) && (_ <=? _) && (_ <=? _)) eqn:E; simpl in H; [| discriminate].
  destruct (negb _ || (_ <=? _)); simpl in H; [| discriminate].
  apply andb_prop in E as [_ E]. apply Z.leb_le in E.
  destruct (Nat.eq_dec i k) as [->|Hne].
  - replace (S k - S k)%nat with 0%nat by lia. simpl. lia.
  - specialize (IH _ _ _ _ _ _ ltac:(lia) H i ltac:(lia)).
    destruct (lookup_lt_is_Some_2 output_sizes k ltac:(lia)) as [x Hx].
    replace (S k - S i)%nat with (S (k - S i)) by lia.
    rewrite (take_S_r _ _ x)
      by (rewrite lookup_drop; replace (S i + (k - S i))%nat with k by lia; exact Hx).
    rewrite prod_intlist_app. unfold at_ in IH. rewrite Hx in IH. simpl in *.
    replace (onumel * (prod_intlist (take (k - S i) (drop (S i) output_sizes)) * (x * 1)))
      with (onumel * x * prod_intlist (take (k - S i) (drop (S i) output_sizes)))
      by ring.
    exact IH.
Qed.

(** The stride of dimension [i] of the freshly allocated output, counted in
    elements of the output domain, is the product of the signal extents
    that follow the dimension. *)
Lemma output_stride_is_product (complex_output : bool) (output_sizes : list Z)
    (n i : nat) :
  length output_sizes = (S n + (if complex_output then 1 else 0))%nat ->
  (complex_output = true -> last output_sizes = Some 2) ->
  (i <= n)%nat ->
  (if complex_output then Z.shiftr (at_ (contiguous_strides output_sizes) i) 1
   else at_ (contiguous_strides output_sizes) i)
  = prod_intlist (take (n - i) (drop (S i) output_sizes)).
Proof.
  intros Hlen Hlast Hi.
  rewrite at_contiguous_strides by (destruct complex_output; lia).
  destruct complex_output.
  - destruct (proj1 (last_Some _ _) (Hlast eq_refl)) as [pre Epre].
    assert (length pre = S n) as Lpre
      by (rewrite Epre, length_app in Hlen; simpl in Hlen; lia).
    rewrite Epre, drop_app_le by lia.
    rewrite take_app_le by (rewrite length_drop; lia).
    rewrite take_ge by (rewrite length_drop; lia).
    rewrite prod_intlist_app. change (prod_intlist [2]) with 2.
    rewrite Z.shiftr_div_pow2 by lia. change (2 ^ 1) with 2.
    now rewrite Z.div_mul by lia.
  - rewrite take_ge by (rewrite length_drop; lia). reflexivity.
Qed.

(** X23. When the loop of the preflight passes and no output extent is
    negative, the output strides handed to the engine are, for every signal
    dimension, the product of the signal extents that follow it (the
    row-major strides of the output counted in complex elements for a
    complex output, whose trailing dimension is the pair of extent 2), not
    wrapped by the conversion to [MKL_LONG]. *)
Theorem output_strides_reach_engine
    (narrow : bool) (MKL_LONG_MAX : Z) (input : Tensor)
    (complex_input complex_output : bool) (output_sizes : list Z) (signal_ndim : Z)
    (log log' : list event) (b : bool) :
  0 <= signal_ndim ->
  length output_sizes
  = (Z.to_nat (signal_ndim + 1) + (if complex_output then 1 else 0))%nat ->
  (complex_output = true -> last output_sizes = Some 2) ->
  Forall (fun s => 0 <= s) output_sizes ->
  preflight_loop MKL_LONG_MAX input complex_input output_sizes
                 (Z.to_nat (signal_ndim + 1)) false 1 1 log = (inr b, log') ->
  mkl_strides narrow MKL_LONG_MAX complex_output (contiguous_strides output_sizes)
              signal_ndim
  = 0 :: map (fun i => prod_intlist (take (Z.to_nat signal_ndim - i)
                                          (drop (S i) output_sizes)))
             (seq 1 (Z.to_nat signal_ndim)).
Proof.
  intros Hnd Hlen Hlast Hnonneg Hloop.
  replace (Z.to_nat (signal_ndim + 1)) with (S (Z.to_nat signal_ndim)) in * by lia.
  unfold mkl_strides. f_equal. apply map_ext_in. intros i Hi. apply in_seq in Hi.
  rewrite (output_stride_is_product complex_output output_sizes
             (Z.to_nat signal_ndim) i Hlen Hlast ltac:(lia)).
  apply to_MKL_LONG_in_range. split.
  - apply prod_intlist_nonneg, Forall_take, Forall_drop. exact Hnonneg.
  - assert (S (Z.to_nat signal_ndim) <= length output_sizes)%nat as Hk
      by (rewrite Hlen; lia).
    pose proof (preflight_loop_ostride MKL_LONG_MAX input complex_input output_sizes
                  _ _ _ _ _ _ _ Hk Hloop i ltac:(lia)) as Hle.
    replace (S (Z.to_nat signal_ndim) - S i)%nat with (Z.to_nat signal_ndim - i)%nat
      in Hle by lia.
    lia.
Qed.

Lemma output_strides_reach_engine_witness :
  mkl_strides true 2147483647 true (contiguous_strides [2; 4; 5; 2]) 2
  = 0 :: map (fun i => prod_intlist (take (Z.to_nat 2 - i) (drop (S i) [2; 4; 5; 2])))
             (seq 1 (Z.to_nat 2)).
Proof.
  apply (output_strides_reach_engine true 2147483647
           (mkTensor [2; 4; 8] [32; 8; 1] Float) false true [2; 4; 5; 2] 2 [] [] false).
  - lia.
  - reflexivity.
  - reflexivity.
  - repeat constructor; lia.
  - reflexivity.
Defined.

End MklTheory.
